(** * Extractive summarization engine of bilingual-summarizer

    Shallow embedding of the TypeScript sources:
    - src/utils/textPreprocessing.ts (unnamed/part_001): extractSentences
    - src/utils/languageDetection.ts: isArabic
    - src/extractors/summarizer.ts (unnamed/part_005): summarizeText and
      its two scorers
    - src/extractors/arabicSummarizer.ts: summarizeArabicText and its
      basic and enhanced scorers
    - src/index.ts: the synchronous summarize entry point
    - the async index (unnamed/part_002): filterResultFields

    A JavaScript string is a list of UTF-16 code units, written as Z.
    Numbers computed by the scorers are IEEE doubles in the source; they
    are modelled as exact rationals (Q).  No statement below depends on
    rounding. *)

From Stdlib Require Import ZArith QArith List Bool Lia Sorting.Permutation
  Sorting.Sorted.
From stdpp Require Import base gmap strings.
Import ListNotations.

Open Scope Z_scope.

(* ------------------------------------------------------------------ *)
(** ** Strings *)

Definition str := list Z.

(** ASCII literal to code units (used to write concrete inputs). *)
Fixpoint s2z (s : string) : str :=
  match s with
  | EmptyString => []
  | String a r => Z.of_N (Ascii.N_of_ascii a) :: s2z r
  end.

Definition str_eqb (a b : str) : bool :=
  bool_decide (a = b).

(** JavaScript [\s] and the set removed by [String.prototype.trim]:
    WhiteSpace and LineTerminator code points. *)
Definition is_ws (c : Z) : bool :=
  ((9 <=? c) && (c <=? 13)) || (c =? 32) || (c =? 160) || (c =? 5760)
  || ((8192 <=? c) && (c <=? 8202)) || (c =? 8232) || (c =? 8233)
  || (c =? 8239) || (c =? 8287) || (c =? 12288) || (c =? 65279).

Fixpoint dropWhile (p : Z -> bool) (s : str) : str :=
  match s with
  | [] => []
  | c :: t => if p c then dropWhile p t else s
  end.

(** [s.trim()] *)
Definition trim (s : str) : str :=
  rev (dropWhile is_ws (rev (dropWhile is_ws s))).

(** [arr.join(sep)] *)
Fixpoint join (sep : str) (l : list str) : str :=
  match l with
  | [] => []
  | [x] => x
  | x :: r => x ++ sep ++ join sep r
  end.

(** [s.split(/[class]+/)]: pieces separated by maximal runs of
    characters satisfying [p]. [inrun] records that the previous
    character belonged to a separator run. *)
Fixpoint splitRuns_aux (p : Z -> bool) (s cur : str) (inrun : bool)
  : list str :=
  match s with
  | [] => [rev cur]
  | c :: t =>
      if p c then
        if inrun then splitRuns_aux p t cur true
        else rev cur :: splitRuns_aux p t [] true
      else splitRuns_aux p t (c :: cur) false
  end.

Definition splitRuns (p : Z -> bool) (s : str) : list str :=
  splitRuns_aux p s [] false.

(** [s.split(ch)] for a one-character string separator. *)
Fixpoint splitChar_aux (ch : Z) (s cur : str) : list str :=
  match s with
  | [] => [rev cur]
  | c :: t =>
      if c =? ch then rev cur :: splitChar_aux ch t []
      else splitChar_aux ch t (c :: cur)
  end.

Definition splitChar (ch : Z) (s : str) : list str := splitChar_aux ch s [].

(** [/(?<=[.!?])\s+/]: a separator is a maximal whitespace run whose
    first character follows one of [. ! ?]. *)
Definition is_latin_punct (c : Z) : bool := (c =? 46) || (c =? 33) || (c =? 63).

Fixpoint splitLatin_aux (s cur : str) (prev : option Z) (inrun : bool)
  : list str :=
  match s with
  | [] => [rev cur]
  | c :: t =>
      if inrun && is_ws c then splitLatin_aux t cur (Some c) true
      else if is_ws c && (match prev with Some d => is_latin_punct d
                                          | None => false end)
      then rev cur :: splitLatin_aux t [] (Some c) true
      else splitLatin_aux t (c :: cur) (Some c) false
  end.

Definition splitLatin (s : str) : list str := splitLatin_aux s [] None false.

(** [/[。؟!\.!\?]+/] *)
Definition is_arabic_stop (c : Z) : bool :=
  (c =? 12290) || (c =? 1567) || (c =? 33) || (c =? 46) || (c =? 33)
  || (c =? 63).

(** [filter(Boolean)] *)
Definition nonEmpty (s : str) : bool :=
  match s with [] => false | _ => true end.

(** [/[؀-ۿ]/.test(text)] *)
Definition is_arabic_block (c : Z) : bool := (1536 <=? c) && (c <=? 1791).
Definition hasArabicChars (s : str) : bool := existsb is_arabic_block s.

(** JavaScript [arr.slice(0, k)] *)
Definition slice0 {A} (l : list A) (k : Z) : list A :=
  if 0 <=? k then firstn (Z.to_nat k) l
  else firstn (Z.to_nat (Z.of_nat (length l) + k)) l.

(** The language detector of languageDetection.ts falls back on the
    external detectors (arajs [eld] and [langdetect]) when no character
    of the Arabic block is present; their verdict "is the text Arabic"
    is the parameter [detectAr] of every section below. *)
Section Lang.
Variable detectAr : str -> bool.

Definition isArabic (text : str) : bool :=
  hasArabicChars text || detectAr text.

(** extractSentences (textPreprocessing.ts) *)
Definition extractSentences (text : str) : list str :=
  if isArabic text
  then map trim (List.filter nonEmpty (splitRuns is_arabic_stop text))
  else map trim (List.filter nonEmpty (splitLatin text)).

End Lang.

(* ------------------------------------------------------------------ *)
(** ** Lexical normalization

    [String.prototype.toLowerCase] maps every code point through the
    Unicode lowercase mapping [lowerTbl] (the context-free part; the
    Final_Sigma rule only concerns U+03A3, which no lowercase mapping
    produces).  [String.prototype.normalize('NFD')] replaces every code
    point by its full canonical decomposition [decomp] and then applies
    the canonical ordering algorithm, which stably sorts every run of
    non-starters (canonical combining class [ccc] <> 0) by class. *)

Definition toLowerCase (lowerTbl : Z -> list Z) (s : str) : str :=
  flat_map lowerTbl s.

(** Insert the code point [c] into the reversed output [acc]: a starter
    is appended; a non-starter moves before every preceding non-starter
    of greater class (stable: never past one of equal class). *)
Fixpoint insertMark (ccc : Z -> nat) (c : Z) (acc : str) : str :=
  match acc with
  | [] => [c]
  | y :: acc' =>
      if (ccc c =? 0)%nat then c :: acc
      else if (ccc c <? ccc y)%nat then y :: insertMark ccc c acc'
      else c :: acc
  end.

Definition canonicalOrder (ccc : Z -> nat) (s : str) : str :=
  rev (fold_left (fun acc c => insertMark ccc c acc) s []).

Definition nfd (decomp : Z -> list Z) (ccc : Z -> nat) (s : str) : str :=
  canonicalOrder ccc (flat_map decomp s).

(** [/[ً-ٰٟ]/] *)
Definition is_arabic_diacritic (c : Z) : bool :=
  ((1611 <=? c) && (c <=? 1631)) || (c =? 1648).

(** [word.normalize('NFD').replace(/[ً-ٰٟ]/g, '')] *)
Definition normalizeArabicWord (decomp : Z -> list Z) (ccc : Z -> nat)
  (w : str) : str :=
  List.filter (fun c => negb (is_arabic_diacritic c)) (nfd decomp ccc w).

(* ------------------------------------------------------------------ *)
(** ** Scored sentences and word-frequency tables *)

Record Sentence := mkSentence { stext : str; score : Q; sindex : nat }.

(** [wordFrequency[word] || 0].  A plain object is modelled as a map:
    keys that name members of Object.prototype ("constructor", ...) are
    assumed not to occur. *)
Definition freqOf (m : gmap str nat) (w : str) : nat :=
  match m !! w with Some n => n | None => 0%nat end.

(** [wordFrequency[w] = (wordFrequency[w] || 0) + 1] *)
Definition bump (m : gmap str nat) (w : str) : gmap str nat :=
  <[w := S (freqOf m w)]> m.

(** [text.includes(term)] *)
Fixpoint prefixb (p s : str) : bool :=
  match p, s with
  | [], _ => true
  | a :: p', b :: s' => (a =? b) && prefixb p' s'
  | _ :: _, [] => false
  end.

Fixpoint includes (s p : str) : bool :=
  prefixb p s || match s with [] => false | _ :: s' => includes s' p end.

(** [for (const t of terms) if (text.includes(t)) { score *= f; break; }] *)
Definition markerBoost (terms : list str) (f : Q) (text : str) (sc : Q) : Q :=
  if existsb (includes text) terms then (sc * f)%Q else sc.

(** [\w] without the [u] flag *)
Definition is_word_char (c : Z) : bool :=
  ((48 <=? c) && (c <=? 57)) || ((65 <=? c) && (c <=? 90))
  || ((97 <=? c) && (c <=? 122)) || (c =? 95).

(** [s.match(/\b\w+\b/g) || []]: the maximal runs of word characters. *)
Definition matchWords (s : str) : list str :=
  List.filter nonEmpty (splitRuns (fun c => negb (is_word_char c)) s).

(** [s.split(/\s+/)] *)
Definition splitWs (s : str) : list str := splitRuns is_ws s.

(** [score / (words.length || 1)] *)
Definition perWord (total : nat) (nwords : nat) : Q :=
  (inject_Z (Z.of_nat total) / inject_Z (Z.of_nat (Nat.max 1 nwords)))%Q.

(** [index < sentences.length * 0.1] (resp. [* 0.2]).  For integer
    [index] the double product rounds to a value on the same side of
    [index] as the exact product [n/10] (resp. [n/5]). *)
Definition inFirstTenth (n i : nat) : bool := (10 * i <? n)%nat.
Definition inFirstFifth (n i : nat) : bool := (5 * i <? n)%nat.

Definition summarizerTerms : list str :=
  [[1605; 1606; 32; 1571; 1607; 1605];
   [1610; 1580; 1576];
   [1590; 1585; 1608; 1585; 1610];
   [1571; 1587; 1575; 1587; 1610];
   [1605; 1607; 1605];
   [1582; 1604; 1575; 1589; 1577];
   [1606; 1578; 1610; 1580; 1577];
   [1573; 1606; 1617];
   [1573; 1606]].

Definition basicTerms : list str :=
  summarizerTerms ++
  [[1604; 1584; 1604; 1603];
   [1608; 1576; 1575; 1604; 1578; 1575; 1604; 1610]].

Definition advancedMarkers : list str :=
  basicTerms ++
  [[1608; 1582; 1604; 1575; 1589; 1577; 32; 1575; 1604; 1602; 1608; 1604];
   [1576; 1575; 1582; 1578; 1589; 1575; 1585];
   [1576; 1588; 1603; 1604; 32; 1571; 1587; 1575; 1587; 1610];
   [1605; 1606; 32; 1575; 1604; 1580; 1583; 1610; 1585; 32; 1576; 1575; 1604;
    1584; 1603; 1585];
   [1604; 1575; 32; 1576; 1583; 32; 1605; 1606];
   [1605; 1606; 32; 1575; 1604; 1590; 1585; 1608; 1585; 1610];
   [1581; 1610; 1579; 32; 1571; 1606];
   [1576; 1575; 1604; 1573; 1590; 1575; 1601; 1577; 32; 1573; 1604; 1609; 32;
    1584; 1604; 1603];
   [1608; 1593; 1604; 1575; 1608; 1577; 32; 1593; 1604; 1609; 32; 1584; 1604;
    1603]].

(** [sentences.map((text, index) => ...)] *)
Fixpoint mapIndexed {A B} (f : nat -> A -> B) (i : nat) (l : list A) : list B :=
  match l with
  | [] => []
  | x :: r => f i x :: mapIndexed f (S i) r
  end.

(** Sum of [wordFrequency[key(word)] || 0] over the words longer than
    one code unit ([words.reduce(...)]). *)
Definition wordTotal (freq : gmap str nat) (key : str -> str)
  (words : list str) : nat :=
  fold_left (fun total w =>
    if (1 <? length w)%nat then (total + freqOf freq (key w))%nat else total)
    words 0%nat.

(** Positional weighting of summarizer.ts (both of its scorers). *)
Definition edgePosition (n i : nat) (sc : Q) : Q :=
  if (i =? 0)%nat || (i =? n - 1)%nat then (sc * (5 # 4))%Q
  else if inFirstTenth n i then (sc * (11 # 10))%Q
  else sc.

(** Positional weighting of arabicSummarizer.ts (both of its scorers). *)
Definition arabicPosition (n i : nat) (sc : Q) : Q :=
  if (i =? 0)%nat then (sc * (3 # 2))%Q
  else if (i =? n - 1)%nat then (sc * (13 # 10))%Q
  else if inFirstFifth n i then (sc * (6 # 5))%Q
  else sc.

(* ------------------------------------------------------------------ *)
(** ** scoreEnglishSentences (summarizer.ts) *)

Section Scorers.
Variable lowerTbl : Z -> list Z.
Variable decomp : Z -> list Z.
Variable ccc : Z -> nat.

Definition englishWords (s : str) : list str :=
  matchWords (toLowerCase lowerTbl s).

Definition englishFrequency (sentences : list str) : gmap str nat :=
  fold_left (fun m s =>
    fold_left (fun m w => if (length w <=? 1)%nat then m else bump m w)
      (englishWords s) m) sentences ∅.

Definition scoreEnglishSentence (freq : gmap str nat) (n i : nat)
  (text : str) : Sentence :=
  let words := englishWords text in
  if (length words <? 3)%nat then mkSentence text 0 i
  else mkSentence text
         (edgePosition n i (perWord (wordTotal freq id words) (length words)))
         i.

Definition scoreEnglishSentences (sentences : list str) : list Sentence :=
  mapIndexed (scoreEnglishSentence (englishFrequency sentences)
                (length sentences)) 0 sentences.

(* ------------------------------------------------------------------ *)
(** ** scoreArabicSentences (summarizer.ts) *)

Definition rawFrequency (sentences : list str) : gmap str nat :=
  fold_left (fun m s =>
    fold_left (fun m w => if (length w <=? 1)%nat then m else bump m w)
      (splitWs s) m) sentences ∅.

Definition scoreArabicSentence (freq : gmap str nat) (n i : nat)
  (text : str) : Sentence :=
  let words := splitWs text in
  if (length words <? 2)%nat then mkSentence text 0 i
  else mkSentence text
         (markerBoost summarizerTerms (23 # 20) text
            (edgePosition n i (perWord (wordTotal freq id words)
                                 (length words))))
         i.

Definition scoreArabicSentences (sentences : list str) : list Sentence :=
  mapIndexed (scoreArabicSentence (rawFrequency sentences)
                (length sentences)) 0 sentences.

(* ------------------------------------------------------------------ *)
(** ** scoreArabicSentencesBasic (arabicSummarizer.ts) *)

Definition normWord : str -> str := normalizeArabicWord decomp ccc.

Definition basicFrequency (sentences : list str) : gmap str nat :=
  fold_left (fun m s =>
    fold_left (fun m w =>
      if (length w <=? 1)%nat then m else bump m (normWord w))
      (splitWs s) m) sentences ∅.

Definition scoreBasicSentence (freq : gmap str nat) (n i : nat)
  (text : str) : Sentence :=
  let words := splitWs text in
  if (length words <? 2)%nat then mkSentence text 0 i
  else mkSentence text
         (markerBoost basicTerms (5 # 4) text
            (arabicPosition n i (perWord (wordTotal freq normWord words)
                                   (length words))))
         i.

Definition scoreArabicSentencesBasic (sentences : list str) : list Sentence :=
  mapIndexed (scoreBasicSentence (basicFrequency sentences)
                (length sentences)) 0 sentences.

End Scorers.

(* ------------------------------------------------------------------ *)
(** ** Exceptions *)

(** What a JavaScript [throw] can carry here: a TypeError raised by the
    engine (property access on [null]/[undefined]), an error thrown by
    an optional backend, or the configuration error of
    filterResultFields. *)
Inductive exn := TypeError | BackendError | ConfigError.

Definition ret {A} (a : A) : exn + A := inr a.
Definition throw {A} (e : exn) : exn + A := inl e.
Definition bindR {A B} (m : exn + A) (k : A -> exn + B) : exn + B :=
  match m with inl e => inl e | inr a => k a end.
Notation "x <-- m ;; k" := (bindR m (fun x => k))
  (at level 100, m at next level, right associativity).
(** [try { m } catch (e) { h(e) }] *)
Definition tryCatch {A} (m : exn + A) (h : exn -> exn + A) : exn + A :=
  match m with inl e => h e | inr a => inr a end.

(* ------------------------------------------------------------------ *)
(** ** Optional Arabic backends (arabicSummarizer.ts)

    Each module variable holds the loaded library or [null].  A call can
    throw; a successful call returns a value that may be [null] or
    [undefined] ([None] below) or lack the expected property. *)

Record Analysis := mkAnalysis { a_tokens : option (list str);
                                a_nouns : option (list str) }.

Record Backends := mkBackends {
  arabicNLP : option (str -> exn + option Analysis);    (* .segment *)
  nodeArabic : option (str -> exn + option (list str)); (* .tokenize *)
  arWordTokenizer : option (str -> exn + option (list str));
  arabicWordnet : option (str -> exn + option (list str)) }.

(** [hasAnyArabicLibrary()] *)
Definition present {A} (o : option A) : bool :=
  match o with Some _ => true | None => false end.

Definition hasAnyArabicLibrary (b : Backends) : bool :=
  present (arabicNLP b) || present (nodeArabic b) || present (arWordTokenizer b)
  || present (arabicWordnet b).

Definition orDefault {A} (o : option A) (d : A) : A :=
  match o with Some a => a | None => d end.

(** [try { const tokens = lib.tokenize(sentence);
           words = tokens || sentence.split(/\s+/); }
     catch (e) { words = sentence.split(/\s+/); }] *)
Definition tokenizeWith (f : str -> exn + option (list str)) (s : str)
  : exn + (list str * list str) :=
  tryCatch (r <-- f s ;; ret (orDefault r (splitWs s), []))
           (fun _ => ret (splitWs s, [])).

(** Words and nouns of one sentence (the body of [sentences.forEach]
    up to the frequency count).  [analysis.tokens] on a [null] analysis
    throws a TypeError inside the [try]. *)
Definition advancedTokens (b : Backends) (s : str)
  : exn + (list str * list str) :=
  match arabicNLP b with
  | Some seg =>
      tryCatch
        (analysis <-- seg s ;;
         match analysis with
         | None => throw TypeError
         | Some a => ret (orDefault (a_tokens a) (splitWs s),
                          orDefault (a_nouns a) [])
         end)
        (fun _ => ret (splitWs s, []))
  | None =>
      match nodeArabic b with
      | Some f => tokenizeWith f s
      | None =>
          match arWordTokenizer b with
          | Some f => tokenizeWith f s
          | None =>
              match arabicWordnet b with
              | Some f => tokenizeWith f s
              | None => ret (splitWs s, [])
              end
          end
      end
  end.

(** Whether the backend selected by the [if/else if] chain throws when
    called on [s]. *)
Definition backendThrows (b : Backends) (s : str) : bool :=
  match arabicNLP b with
  | Some seg => match seg s with inl _ => true | inr _ => false end
  | None =>
      match nodeArabic b, arWordTokenizer b, arabicWordnet b with
      | Some f, _, _ | None, Some f, _ | None, None, Some f =>
          match f s with inl _ => true | inr _ => false end
      | None, None, None => false
      end
  end.

(** [array.forEach] over a computation that may throw: the first throw
    aborts the loop. *)
Fixpoint mapM {A B} (f : A -> exn + B) (l : list A) : exn + list B :=
  match l with
  | [] => ret []
  | x :: r => y <-- f x ;; ys <-- mapM f r ;; ret (y :: ys)
  end.

Section Advanced.
Variable decomp : Z -> list Z.
Variable ccc : Z -> nat.

Definition advancedFrequency (toks : list (list str * list str))
  : gmap str nat :=
  fold_left (fun m wn =>
    fold_left (fun m w =>
      let nw := normalizeArabicWord decomp ccc w in
      if (1 <? length nw)%nat then bump m nw else m) (fst wn) m) toks ∅.

(** [nounScores[idx] = nouns.length] and [nounScores[index] || 0] *)
Definition nounCount (toks : list (list str * list str)) (i : nat) : nat :=
  match nth_error toks i with Some wn => length (snd wn) | None => 0%nat end.

Definition scoreAdvancedSentence (freq : gmap str nat)
  (toks : list (list str * list str)) (n i : nat) (text : str) : Sentence :=
  if (length text <? 20)%nat then mkSentence text 0 i
  else
    let words := splitWs text in
    let sc := perWord (wordTotal freq (normalizeArabicWord decomp ccc) words)
                (length words) in
    let sc := (sc + inject_Z (Z.of_nat (nounCount toks i)) * (1 # 2))%Q in
    mkSentence text
      (markerBoost advancedMarkers (13 # 10) text (arabicPosition n i sc)) i.

Definition scoreArabicSentencesAdvanced (b : Backends) (sentences : list str)
  : exn + list Sentence :=
  toks <-- mapM (advancedTokens b) sentences ;;
  ret (mapIndexed (scoreAdvancedSentence (advancedFrequency toks) toks
                     (length sentences)) 0 sentences).

End Advanced.

(* ------------------------------------------------------------------ *)
(** ** Selection: sort by score, take the top k, restore order *)

(** [Array.prototype.sort] is stable; with the comparator
    [(a, b) => b.score - a.score] it orders by decreasing score and
    keeps the original order among equal scores.  Insertion sort from
    the right inserts each element before every element that does not
    score strictly higher. *)
Fixpoint insertByScore (x : Sentence) (l : list Sentence) : list Sentence :=
  match l with
  | [] => [x]
  | y :: r => if Qle_bool (score y) (score x) then x :: l
              else y :: insertByScore x r
  end.

Definition sortByScoreDesc (l : list Sentence) : list Sentence :=
  fold_right insertByScore [] l.

(** [(a, b) => a.index - b.index] *)
Fixpoint insertByIndex (x : Sentence) (l : list Sentence) : list Sentence :=
  match l with
  | [] => [x]
  | y :: r => if (sindex x <=? sindex y)%nat then x :: l
              else y :: insertByIndex x r
  end.

Definition sortByIndex (l : list Sentence) : list Sentence :=
  fold_right insertByIndex [] l.

(** [sorted.slice(0, k)] then [topSentences.sort(byIndex)] *)
Definition topSentences (k : Z) (scored : list Sentence) : list Sentence :=
  sortByIndex (slice0 (sortByScoreDesc scored) k).

(** [topSentences.map(s => s.text).join(' ')] *)
Definition joinTexts (l : list Sentence) : str := join [32] (map stext l).

(** [!text || text.trim().length === 0] *)
Definition isBlank (text : str) : bool :=
  match trim text with [] => true | _ => false end.

(** The [catch] branch of summarizeText and summarizeArabicText:
    [const truncated = text.split('.').slice(0, sentenceCount)
                          .join('.').trim();
     return truncated || text;] *)
Definition truncateFallback (text : str) (k : Z) : str :=
  let truncated := trim (join [46] (slice0 (splitChar 46 text) k)) in
  if nonEmpty truncated then truncated else text.

(* ------------------------------------------------------------------ *)
(** ** summarizeText (summarizer.ts)

    [summarizeTextWith segment scoreFor] is the function with its two
    fallible stages as parameters: [segment] is [extractSentences] and
    [scoreFor text sentences] the language dispatch to the scorers.  The
    code's stages are the total functions of [summarizeText] below. *)

Definition summarizeTextBody (segment : str -> exn + list str)
  (scoreFor : str -> list str -> exn + list Sentence) (text : str) (k : Z)
  : exn + str :=
  if isBlank text then ret []
  else
    sentences <-- segment text ;;
    if (Z.of_nat (length sentences) <=? k) then ret text
    else
      scored <-- scoreFor text sentences ;;
      ret (joinTexts (topSentences k scored)).

Definition summarizeTextWith (segment : str -> exn + list str)
  (scoreFor : str -> list str -> exn + list Sentence) (text : str) (k : Z)
  : str :=
  match summarizeTextBody segment scoreFor text k with
  | inl _ => truncateFallback text k
  | inr s => s
  end.

Section Engine.
Variable detectAr : str -> bool.
Variable lowerTbl : Z -> list Z.
Variable decomp : Z -> list Z.
Variable ccc : Z -> nat.

Definition summarizerScore (text : str) (sentences : list str)
  : exn + list Sentence :=
  ret (if isArabic detectAr text then scoreArabicSentences sentences
       else scoreEnglishSentences lowerTbl sentences).

Definition summarizeText (text : str) (k : Z) : str :=
  summarizeTextWith (fun t => ret (extractSentences detectAr t))
    summarizerScore text k.

(* ------------------------------------------------------------------ *)
(** ** summarizeArabicText (arabicSummarizer.ts) *)

Definition summarizeArabicText (b : Backends) (text : str) (k : Z) : str :=
  summarizeTextWith (fun t => ret (extractSentences detectAr t))
    (fun _ sentences =>
       if hasAnyArabicLibrary b
       then scoreArabicSentencesAdvanced decomp ccc b sentences
       else ret (scoreArabicSentencesBasic decomp ccc sentences))
    text k.

(* ------------------------------------------------------------------ *)
(** ** summarize (src/index.ts), path with [cleanedText.length >= minLength]

    [rawSummary = summarizeText(cleanedText, Math.min(sentenceCount, 5))],
    then [extractSentences(rawSummary).slice(0, sentenceCount)]. *)

Definition limitedSentences (cleanedText : str) (sentenceCount : Z)
  : list str :=
  let rawSummary := summarizeText cleanedText (Z.min sentenceCount 5) in
  slice0 (extractSentences detectAr rawSummary) sentenceCount.

(** The [summary] field of the result. *)
Definition summarizeSummary (minLength : nat) (cleanedText : str)
  (sentenceCount : Z) : str :=
  if (length cleanedText <? minLength)%nat then cleanedText
  else join [32] (limitedSentences cleanedText sentenceCount).

End Engine.

(* ------------------------------------------------------------------ *)
(** ** filterResultFields (async index, unnamed/part_002) *)

(** The values a result record holds. *)
Inductive jsval :=
| JUndefined | JNull | JBool (b : bool) | JNum (n : Z) | JStr (s : string)
| JStrs (l : list string).

(** A result record; [field in result] is [is_Some (result !! field)]
    (requested field names are assumed not to be Object.prototype
    member names). *)
Abbreviation record := (gmap string jsval).

(** [responseStructure: string[] | { include?: string[]; exclude?: string[] }] *)
Inductive ResponseStructure :=
| RSList (fields : list string)
| RSObject (include exclude : option (list string)).

(** [result.ok !== undefined] *)
Definition okDefined (result : record) : bool :=
  match result !! "ok" with
  | None | Some JUndefined => false
  | Some _ => true
  end.

(** The array branch. *)
Definition filterByList (result : record) (fields : list string) : record :=
  let includeOk := negb (existsb (String.eqb "ok") fields) && okDefined result in
  let filtered : record :=
    if includeOk then
      match result !! "ok" with Some v => {[ "ok" := v ]} | None => ∅ end
    else ∅ in
  fold_left (fun acc field =>
    match result !! field with
    | Some v => <[field := v]> acc
    | None => acc
    end) fields filtered.

Definition filterResultFields (result : record) (rs : ResponseStructure)
  : exn + record :=
  match rs with
  | RSList fields => ret (filterByList result fields)
  | RSObject inc exc =>
      match inc, exc with
      | Some _, Some _ => throw ConfigError
      | Some fields, None => ret (filterByList result fields)
      | None, Some fields =>
          ret (fold_left (fun acc field => delete field acc) fields result)
      | None, None => ret result
      end
  end.

(* ------------------------------------------------------------------ *)
(** ** Concrete Unicode data for evaluation

    [asciiLower]: the lowercase mapping restricted to Basic Latin.
    [arabicDecomp] and [arabicCcc]: the canonical decompositions and
    combining classes of the Arabic block (UnicodeData.txt); every other
    code point is its own decomposition and a starter. *)

Definition asciiLower (c : Z) : list Z :=
  if (65 <=? c) && (c <=? 90) then [c + 32] else [c].

Definition arabicDecomp (c : Z) : list Z :=
  if c =? 1570 then [1575; 1619]
  else if c =? 1571 then [1575; 1620]
  else if c =? 1572 then [1608; 1620]
  else if c =? 1573 then [1575; 1621]
  else if c =? 1574 then [1610; 1620]
  else if c =? 1728 then [1749; 1620]
  else if c =? 1730 then [1729; 1620]
  else if c =? 1747 then [1746; 1620]
  else [c].

Definition arabicCcc (c : Z) : nat :=
  if (1611 <=? c) && (c <=? 1618) then Z.to_nat (c - 1584)
  else if (c =? 1619) || (c =? 1620) then 230%nat
  else if (c =? 1621) || (c =? 1622) then 220%nat
  else if (1623 <=? c) && (c <=? 1627) then 230%nat
  else if c =? 1628 then 220%nat
  else if (c =? 1629) || (c =? 1630) then 230%nat
  else if c =? 1631 then 220%nat
  else if c =? 1648 then 35%nat
  else 0%nat.

(** No optional Arabic library installed. *)
Definition noBackends : Backends := mkBackends None None None None.

(** A detector that reports Arabic only through the character test. *)
Definition noDetect (_ : str) : bool := false.

(* ================================================================== *)
(** * Properties *)

(* ------------------------------------------------------------------ *)
(** ** Sorting and selection *)

Lemma insertByIndex_perm x l : Permutation (x :: l) (insertByIndex x l).
Proof.
  induction l as [|y r IH]; simpl; [reflexivity|].
  destruct (sindex x <=? sindex y)%nat; [reflexivity|].
  etransitivity; [apply perm_swap|]. now apply perm_skip.
Qed.

Lemma sortByIndex_perm l : Permutation l (sortByIndex l).
Proof.
  induction l as [|x r IH]; simpl; [reflexivity|].
  etransitivity; [apply perm_skip, IH|]. apply insertByIndex_perm.
Qed.

Lemma insertByScore_perm x l : Permutation (x :: l) (insertByScore x l).
Proof.
  induction l as [|y r IH]; simpl; [reflexivity|].
  destruct (Qle_bool (score y) (score x)); [reflexivity|].
  etransitivity; [apply perm_swap|]. now apply perm_skip.
Qed.

Lemma sortByScoreDesc_perm l : Permutation l (sortByScoreDesc l).
Proof.
  induction l as [|x r IH]; simpl; [reflexivity|].
  etransitivity; [apply perm_skip, IH|]. apply insertByScore_perm.
Qed.

Definition indexLe (a b : Sentence) : Prop := (sindex a <= sindex b)%nat.
Definition indexLt (a b : Sentence) : Prop := (sindex a < sindex b)%nat.

Lemma insertByIndex_sorted x l :
  Sorted indexLe l -> Sorted indexLe (insertByIndex x l).
Proof.
  induction 1 as [|y r Hr IH Hhd]; simpl.
  - constructor; constructor.
  - destruct (sindex x <=? sindex y)%nat eqn:E.
    + apply Nat.leb_le in E. constructor; [constructor; auto|].
      constructor. exact E.
    + apply Nat.leb_gt in E. constructor; [exact IH|].
      destruct r as [|z r']; simpl.
      * constructor. unfold indexLe. lia.
      * destruct (sindex x <=? sindex z)%nat eqn:E2.
        -- constructor. unfold indexLe. lia.
        -- inversion Hhd; subst. constructor. assumption.
Qed.

Lemma sortByIndex_sorted l : Sorted indexLe (sortByIndex l).
Proof.
  induction l as [|x r IH]; simpl; [constructor|].
  now apply insertByIndex_sorted.
Qed.

Lemma NoDup_firstn {A} (n : nat) (l : list A) : NoDup l -> NoDup (firstn n l).
Proof.
  intros H. rewrite <- (firstn_skipn n l) in H.
  apply NoDup_app in H. tauto.
Qed.

Lemma slice0_firstn {A} (l : list A) k : exists n, slice0 l k = firstn n l.
Proof. unfold slice0. destruct (0 <=? k); eauto. Qed.

Lemma strict_of_sorted_nodup l :
  Sorted indexLe l -> NoDup (map sindex l) -> StronglySorted indexLt l.
Proof.
  intros Hs Hnd. apply Sorted_StronglySorted in Hs;
    [|intros a b c; unfold indexLe; lia].
  induction Hs as [|a r Hr IH Hall]; constructor.
  - apply IH. now inversion Hnd.
  - inversion Hnd as [|? ? Hnin Hnd']; subst.
    apply Forall_forall. intros b Hb.
    pose proof (proj1 (Forall_forall _ _) Hall b Hb) as Hle.
    unfold indexLe, indexLt in *.
    assert (sindex a <> sindex b); [|lia].
    intros Heq. apply Hnin. rewrite Heq.
    apply list_elem_of_In, in_map, list_elem_of_In, Hb.
Qed.

(** The selected sentences come out strictly increasing in [index],
    whatever the scores, provided the indices of the scored sequence are
    pairwise distinct. *)
Lemma topSentences_strict k scored :
  NoDup (map sindex scored) -> StronglySorted indexLt (topSentences k scored).
Proof.
  intros Hnd. unfold topSentences.
  apply strict_of_sorted_nodup; [apply sortByIndex_sorted|].
  destruct (slice0_firstn (sortByScoreDesc scored) k) as [n ->].
  apply NoDup_ListNoDup.
  eapply Permutation_NoDup; [apply Permutation_map, sortByIndex_perm|].
  rewrite <- firstn_map. apply NoDup_ListNoDup, NoDup_firstn, NoDup_ListNoDup.
  eapply Permutation_NoDup; [apply Permutation_map, sortByScoreDesc_perm|].
  apply NoDup_ListNoDup, Hnd.
Qed.

Lemma topSentences_in k scored s :
  In s (topSentences k scored) -> In s scored.
Proof.
  unfold topSentences. intros H.
  apply (Permutation_in _ (Permutation_sym (sortByIndex_perm _))) in H.
  destruct (slice0_firstn (sortByScoreDesc scored) k) as [n Hn].
  rewrite Hn in H.
  eapply Permutation_in; [apply Permutation_sym, sortByScoreDesc_perm|].
  rewrite <- (firstn_skipn n (sortByScoreDesc scored)).
  apply in_or_app. now left.
Qed.

(* ------------------------------------------------------------------ *)
(** ** The scorers annotate without reordering *)

(** [scored[i]] is sentence [i] of [ss], carrying index [i]. *)
Definition indexedBy (ss : list str) (scored : list Sentence) : Prop :=
  map sindex scored = seq 0 (length ss) /\ map stext scored = ss.

Lemma mapIndexed_indexed (f : nat -> str -> Sentence) j l :
  (forall i x, sindex (f i x) = i /\ stext (f i x) = x) ->
  map sindex (mapIndexed f j l) = seq j (length l)
  /\ map stext (mapIndexed f j l) = l.
Proof.
  intros Hf. revert j. induction l as [|x r IH]; intros j; simpl; [auto|].
  destruct (Hf j x) as [H1 H2]. destruct (IH (S j)) as [H3 H4].
  rewrite H1, H2, H3, H4. auto.
Qed.

Ltac scorer_fields :=
  intros; repeat match goal with
  | |- context [if ?c then _ else _] => destruct c
  end; simpl; auto.

Lemma scoreEnglishSentences_indexed lowerTbl ss :
  indexedBy ss (scoreEnglishSentences lowerTbl ss).
Proof.
  apply mapIndexed_indexed. unfold scoreEnglishSentence. scorer_fields.
Qed.

Lemma scoreArabicSentences_indexed ss :
  indexedBy ss (scoreArabicSentences ss).
Proof.
  apply mapIndexed_indexed. unfold scoreArabicSentence. scorer_fields.
Qed.

Lemma scoreArabicSentencesBasic_indexed decomp ccc ss :
  indexedBy ss (scoreArabicSentencesBasic decomp ccc ss).
Proof.
  apply mapIndexed_indexed. unfold scoreBasicSentence. scorer_fields.
Qed.

Lemma tryCatch_total {A} (m : exn + A) h :
  (forall e, exists a, h e = inr a) -> exists a, tryCatch m h = inr a.
Proof. intros Hh. destruct m as [e|a]; simpl; eauto. Qed.

(** Tokenization with any backend always yields words: every throw of a
    backend is caught. *)
Lemma advancedTokens_total b s : exists wn, advancedTokens b s = inr wn.
Proof.
  unfold advancedTokens, tokenizeWith.
  destruct (arabicNLP b); [apply tryCatch_total; eauto|].
  destruct (nodeArabic b); [apply tryCatch_total; eauto|].
  destruct (arWordTokenizer b); [apply tryCatch_total; eauto|].
  destruct (arabicWordnet b); [apply tryCatch_total; eauto|].
  eauto.
Qed.

Lemma mapM_total {A B} (f : A -> exn + B) l :
  (forall x, exists y, f x = inr y) ->
  exists ys, mapM f l = inr ys /\ length ys = length l.
Proof.
  intros Hf. induction l as [|x r IH]; simpl; [eauto|].
  destruct (Hf x) as [y ->]. destruct IH as [ys [-> Hlen]].
  simpl. exists (y :: ys). simpl. auto.
Qed.

Lemma scoreArabicSentencesAdvanced_total decomp ccc b ss :
  exists toks,
    mapM (advancedTokens b) ss = inr toks /\ length toks = length ss /\
    scoreArabicSentencesAdvanced decomp ccc b ss =
      inr (mapIndexed (scoreAdvancedSentence decomp ccc
             (advancedFrequency decomp ccc toks) toks (length ss)) 0 ss).
Proof.
  destruct (mapM_total (advancedTokens b) ss (advancedTokens_total b))
    as [toks [Htoks Hlen]].
  exists toks. unfold scoreArabicSentencesAdvanced. rewrite Htoks. auto.
Qed.

Lemma scoreAdvanced_indexed decomp ccc freq toks n ss :
  indexedBy ss (mapIndexed (scoreAdvancedSentence decomp ccc freq toks n) 0 ss).
Proof.
  apply mapIndexed_indexed. unfold scoreAdvancedSentence. scorer_fields.
Qed.

Lemma indexed_nodup ss scored : indexedBy ss scored -> NoDup (map sindex scored).
Proof.
  intros [H _]. rewrite H. apply NoDup_ListNoDup, seq_NoDup.
Qed.

Lemma indexed_source ss scored s :
  indexedBy ss scored -> In s scored ->
  nth_error ss (sindex s) = Some (stext s).
Proof.
  intros [Hi Ht] Hin. apply In_nth_error in Hin as [i Hn].
  assert (Hs : nth_error (map sindex scored) i = Some (sindex s))
    by (rewrite nth_error_map, Hn; reflexivity).
  assert (Ht' : nth_error (map stext scored) i = Some (stext s))
    by (rewrite nth_error_map, Hn; reflexivity).
  rewrite Hi in Hs. rewrite Ht in Ht'.
  assert (Hlt : (i < length ss)%nat)
    by (apply nth_error_Some; rewrite Ht'; discriminate).
  rewrite nth_error_seq in Hs. destruct (Nat.ltb_spec i (length ss)); [|lia].
  injection Hs as <-. exact Ht'.
Qed.

(** Selection over a scored sequence that annotates [ss]: the selected
    sentences are sentences of [ss] at their own index, strictly
    increasing in index. *)
Lemma select_in_order ss scored k :
  indexedBy ss scored ->
  StronglySorted indexLt (topSentences k scored)
  /\ Forall (fun s => nth_error ss (sindex s) = Some (stext s))
            (topSentences k scored).
Proof.
  intros H. split.
  - apply topSentences_strict, (indexed_nodup ss), H.
  - apply Forall_forall. intros s Hs.
    apply (indexed_source ss scored); [exact H|].
    apply (topSentences_in k). now apply list_elem_of_In.
Qed.

(* ------------------------------------------------------------------ *)
(** ** C1: order restoration *)

(** Normal path of both summarizers: the result is the space-join of
    the texts of [topSentences k scored] for a scored sequence that
    annotates the segmented sentences. *)
Lemma summarizeText_normal detectAr lowerTbl text k :
  isBlank text = false ->
  (k < Z.of_nat (length (extractSentences detectAr text)))%Z ->
  exists scored,
    indexedBy (extractSentences detectAr text) scored /\
    summarizeText detectAr lowerTbl text k = joinTexts (topSentences k scored).
Proof.
  intros Hb Hk. unfold summarizeText, summarizeTextWith, summarizeTextBody.
  rewrite Hb. cbn [bindR ret].
  destruct (Z.leb_spec (Z.of_nat (length (extractSentences detectAr text))) k);
    [lia|].
  unfold summarizerScore. cbn [bindR ret].
  destruct (isArabic detectAr text).
  - eexists; split; [apply scoreArabicSentences_indexed|reflexivity].
  - eexists; split; [apply scoreEnglishSentences_indexed|reflexivity].
Qed.

Lemma summarizeArabicText_normal detectAr decomp ccc b text k :
  isBlank text = false ->
  (k < Z.of_nat (length (extractSentences detectAr text)))%Z ->
  exists scored,
    indexedBy (extractSentences detectAr text) scored /\
    summarizeArabicText detectAr decomp ccc b text k
      = joinTexts (topSentences k scored).
Proof.
  intros Hb Hk. unfold summarizeArabicText, summarizeTextWith, summarizeTextBody.
  rewrite Hb. cbn [bindR ret].
  destruct (Z.leb_spec (Z.of_nat (length (extractSentences detectAr text))) k);
    [lia|].
  destruct (hasAnyArabicLibrary b).
  - destruct (scoreArabicSentencesAdvanced_total decomp ccc b
                (extractSentences detectAr text)) as [toks [_ [_ ->]]].
    cbn [bindR ret].
    eexists; split; [apply scoreAdvanced_indexed|reflexivity].
  - cbn [bindR ret].
    eexists; split; [apply scoreArabicSentencesBasic_indexed|reflexivity].
Qed.

(** C1. When summarizeText (or summarizeArabicText) ranks sentences, its
    summary is the space-join of selected sentences of the document,
    each at its original index, and the selected indices are strictly
    increasing from left to right. *)
Theorem summary_sentences_in_source_order detectAr lowerTbl decomp ccc
  (b : Backends) (text : str) (k : Z)
  (Hblank : isBlank text = false)
  (Hrank : (k < Z.of_nat (length (extractSentences detectAr text)))%Z) :
  (exists sel,
     summarizeText detectAr lowerTbl text k = joinTexts sel /\
     StronglySorted indexLt sel /\
     Forall (fun s => nth_error (extractSentences detectAr text) (sindex s)
                      = Some (stext s)) sel)
  /\
  (exists sel,
     summarizeArabicText detectAr decomp ccc b text k = joinTexts sel /\
     StronglySorted indexLt sel /\
     Forall (fun s => nth_error (extractSentences detectAr text) (sindex s)
                      = Some (stext s)) sel).
Proof.
  split.
  - destruct (summarizeText_normal detectAr lowerTbl text k Hblank Hrank)
      as [scored [Hix ->]].
    exists (topSentences k scored). split; [reflexivity|].
    now apply select_in_order.
  - destruct (summarizeArabicText_normal detectAr decomp ccc b text k Hblank
                Hrank) as [scored [Hix ->]].
    exists (topSentences k scored). split; [reflexivity|].
    now apply select_in_order.
Qed.

Definition scenarioA : str :=
  s2z "The cat sat on the mat. The cat sat on the mat. The cat sat on the mat. The cat sat on the mat.".

Lemma summary_sentences_in_source_order_witness :
  isBlank scenarioA = false /\
  (2 < Z.of_nat (length (extractSentences noDetect scenarioA)))%Z /\
  ((exists sel,
     summarizeText noDetect asciiLower scenarioA 2 = joinTexts sel /\
     StronglySorted indexLt sel /\
     Forall (fun s => nth_error (extractSentences noDetect scenarioA) (sindex s)
                      = Some (stext s)) sel)
  /\
  (exists sel,
     summarizeArabicText noDetect arabicDecomp arabicCcc noBackends scenarioA 2
       = joinTexts sel /\
     StronglySorted indexLt sel /\
     Forall (fun s => nth_error (extractSentences noDetect scenarioA) (sindex s)
                      = Some (stext s)) sel)).
Proof.
  split; [vm_compute; reflexivity|].
  split; [vm_compute; reflexivity|].
  apply (summary_sentences_in_source_order noDetect asciiLower arabicDecomp
           arabicCcc noBackends scenarioA 2);
    vm_compute; reflexivity.
Defined.

(* ------------------------------------------------------------------ *)
(** ** C2: short-circuit *)

Lemma summarizeTextWith_short segment scoreFor text k ss :
  isBlank text = false -> segment text = inr ss ->
  (Z.of_nat (length ss) <= k)%Z ->
  summarizeTextWith segment scoreFor text k = text.
Proof.
  intros Hb Hs Hk. unfold summarizeTextWith, summarizeTextBody.
  rewrite Hb, Hs. cbn [bindR ret].
  destruct (Z.leb_spec (Z.of_nat (length ss)) k); [reflexivity|lia].
Qed.

(** C2 (as the code does it). When the segmentation of a non-blank
    text yields at most [sentenceCount] sentences, summarizeText and
    summarizeArabicText return the input text itself. *)
Theorem short_circuit_returns_text detectAr lowerTbl decomp ccc
  (b : Backends) (text : str) (k : Z)
  (Hblank : isBlank text = false)
  (Hshort : (Z.of_nat (length (extractSentences detectAr text)) <= k)%Z) :
  summarizeText detectAr lowerTbl text k = text /\
  summarizeArabicText detectAr decomp ccc b text k = text.
Proof.
  split; eapply summarizeTextWith_short; eauto; reflexivity.
Qed.

Definition twoSpaced : str := s2z "Hi.  Bye.".

Lemma short_circuit_returns_text_witness :
  isBlank twoSpaced = false /\
  (Z.of_nat (length (extractSentences noDetect twoSpaced)) <= 2)%Z /\
  (summarizeText noDetect asciiLower twoSpaced 2 = twoSpaced /\
   summarizeArabicText noDetect arabicDecomp arabicCcc noBackends twoSpaced 2
     = twoSpaced).
Proof.
  split; [vm_compute; reflexivity|].
  split; [vm_compute; discriminate|].
  apply (short_circuit_returns_text noDetect asciiLower arabicDecomp arabicCcc
           noBackends twoSpaced 2); vm_compute; [reflexivity|discriminate].
Defined.

(** C2 as stated fails: on "Hi.  Bye." with sentenceCount 2 the result
    keeps the double space, while the segmented sentences joined with
    one space do not. *)
Lemma short_circuit_join_counterexample :
  isBlank twoSpaced = false /\
  (Z.of_nat (length (extractSentences noDetect twoSpaced)) <= 2)%Z /\
  summarizeText noDetect asciiLower twoSpaced 2
    <> join [32] (extractSentences noDetect twoSpaced).
Proof.
  split; [vm_compute; reflexivity|].
  split; [vm_compute; discriminate|].
  vm_compute. discriminate.
Qed.

(* ------------------------------------------------------------------ *)
(** ** C3: short sentences score 0 *)

Lemma nth_error_mapIndexed {A B} (f : nat -> A -> B) j l i :
  nth_error (mapIndexed f j l) i = option_map (f (j + i)%nat) (nth_error l i).
Proof.
  revert j i. induction l as [|x r IH]; intros j i; destruct i; simpl; auto.
  - now rewrite Nat.add_0_r.
  - rewrite IH. now rewrite Nat.add_succ_r.
Qed.

(** The spec's normalized English tokens (section 4.2): the word
    tokens of the lowercased sentence, without those of length <= 1. *)
Definition specEnglishTokens (lowerTbl : Z -> list Z) (s : str) : list str :=
  List.filter (fun w => (1 <? length w)%nat) (englishWords lowerTbl s).

(** C3 (as the code does it). A sentence keeps its place in the output
    of every scorer and gets score exactly 0 when it has fewer than 3
    word tokens (scoreEnglishSentences, single-character tokens
    included), fewer than 2 whitespace-separated pieces (scoreArabicSentences
    and scoreArabicSentencesBasic), or fewer than 20 code units
    (scoreArabicSentencesAdvanced). *)
Theorem short_sentence_scores_zero lowerTbl decomp ccc (b : Backends)
  (ss : list str) (i : nat) (s : str) (Hs : nth_error ss i = Some s) :
  ((length (englishWords lowerTbl s) < 3)%nat ->
   nth_error (scoreEnglishSentences lowerTbl ss) i = Some (mkSentence s 0 i))
  /\
  ((length (splitWs s) < 2)%nat ->
   nth_error (scoreArabicSentences ss) i = Some (mkSentence s 0 i) /\
   nth_error (scoreArabicSentencesBasic decomp ccc ss) i
     = Some (mkSentence s 0 i))
  /\
  ((length s < 20)%nat ->
   exists l, scoreArabicSentencesAdvanced decomp ccc b ss = inr l /\
             nth_error l i = Some (mkSentence s 0 i)).
Proof.
  split; [|split].
  - intros Hw. unfold scoreEnglishSentences.
    rewrite nth_error_mapIndexed, Hs. simpl.
    unfold scoreEnglishSentence. apply Nat.ltb_lt in Hw. now rewrite Hw.
  - intros Hw. apply Nat.ltb_lt in Hw. split.
    + unfold scoreArabicSentences. rewrite nth_error_mapIndexed, Hs. simpl.
      unfold scoreArabicSentence. now rewrite Hw.
    + unfold scoreArabicSentencesBasic. rewrite nth_error_mapIndexed, Hs.
      simpl. unfold scoreBasicSentence. now rewrite Hw.
  - intros Hl. apply Nat.ltb_lt in Hl.
    destruct (scoreArabicSentencesAdvanced_total decomp ccc b ss)
      as [toks [_ [_ ->]]].
    eexists; split; [reflexivity|].
    rewrite nth_error_mapIndexed, Hs. simpl.
    unfold scoreAdvancedSentence. now rewrite Hl.
Qed.

Definition shortDoc : list str := [s2z "Hi."; s2z "The cat sat on the mat."].

Lemma short_sentence_scores_zero_witness :
  nth_error shortDoc 0 = Some (s2z "Hi.") /\
  (((length (englishWords asciiLower (s2z "Hi.")) < 3)%nat ->
    nth_error (scoreEnglishSentences asciiLower shortDoc) 0
      = Some (mkSentence (s2z "Hi.") 0 0))
   /\
   ((length (splitWs (s2z "Hi.")) < 2)%nat ->
    nth_error (scoreArabicSentences shortDoc) 0
      = Some (mkSentence (s2z "Hi.") 0 0) /\
    nth_error (scoreArabicSentencesBasic arabicDecomp arabicCcc shortDoc) 0
      = Some (mkSentence (s2z "Hi.") 0 0))
   /\
   ((length (s2z "Hi.") < 20)%nat ->
    exists l, scoreArabicSentencesAdvanced arabicDecomp arabicCcc noBackends
                shortDoc = inr l /\
              nth_error l 0 = Some (mkSentence (s2z "Hi.") 0 0))).
Proof.
  split; [reflexivity|].
  apply (short_sentence_scores_zero asciiLower arabicDecomp arabicCcc
           noBackends shortDoc 0 (s2z "Hi.")).
  reflexivity.
Defined.

(** C3 as stated fails: "I am here." has two normalized tokens ("am",
    "here"), fewer than 3, but three word tokens, and its score is 5/6. *)
Lemma short_sentence_normalized_counterexample :
  (length (specEnglishTokens asciiLower (s2z "I am here.")) < 3)%nat /\
  exists sc,
    nth_error (scoreEnglishSentences asciiLower [s2z "I am here."]) 0
      = Some (mkSentence (s2z "I am here.") sc 0) /\
    ~ (sc == 0)%Q.
Proof.
  split; [vm_compute; lia|].
  eexists; split; [vm_compute; reflexivity|].
  vm_compute. discriminate.
Qed.

(* ------------------------------------------------------------------ *)
(** ** C4: positional boosts *)

(** Score of a sentence before the positional step (frequency density;
    for the enhanced scorer, plus the noun term). *)
Definition englishDensity lowerTbl (ss : list str) (s : str) : Q :=
  perWord (wordTotal (englishFrequency lowerTbl ss) id (englishWords lowerTbl s))
    (length (englishWords lowerTbl s)).

Definition summarizerArabicDensity (ss : list str) (s : str) : Q :=
  perWord (wordTotal (rawFrequency ss) id (splitWs s)) (length (splitWs s)).

Definition basicDensity decomp ccc (ss : list str) (s : str) : Q :=
  perWord (wordTotal (basicFrequency decomp ccc ss) (normWord decomp ccc)
             (splitWs s)) (length (splitWs s)).

Definition advancedBase decomp ccc (toks : list (list str * list str)) (i : nat)
  (s : str) : Q :=
  (perWord (wordTotal (advancedFrequency decomp ccc toks)
              (normalizeArabicWord decomp ccc) (splitWs s)) (length (splitWs s))
   + inject_Z (Z.of_nat (nounCount toks i)) * (1 # 2))%Q.

(** [scoreAt l i s sc]: entry [i] of the scorer output is sentence [s]
    with score [sc]. *)
Definition scoreAt (l : list Sentence) (i : nat) (s : str) (sc : Q) : Prop :=
  nth_error l i = Some (mkSentence s sc i).

Lemma edgePosition_first_last n i sc :
  (i = 0 \/ i = n - 1)%nat -> edgePosition n i sc = (sc * (5 # 4))%Q.
Proof.
  intros H. unfold edgePosition.
  destruct H as [->| ->]; [reflexivity|].
  rewrite Nat.eqb_refl, orb_true_r. reflexivity.
Qed.

Lemma edgePosition_tenth n i sc :
  i <> 0%nat -> i <> (n - 1)%nat -> (10 * i < n)%nat ->
  edgePosition n i sc = (sc * (11 # 10))%Q.
Proof.
  intros H0 H1 H2. unfold edgePosition, inFirstTenth.
  apply Nat.eqb_neq in H0, H1. apply Nat.ltb_lt in H2.
  now rewrite H0, H1, H2.
Qed.

Lemma arabicPosition_cases n i sc :
  (i = 0%nat -> arabicPosition n i sc = (sc * (3 # 2))%Q) /\
  (i <> 0%nat -> i = (n - 1)%nat -> arabicPosition n i sc = (sc * (13 # 10))%Q) /\
  (i <> 0%nat -> i <> (n - 1)%nat -> (5 * i < n)%nat ->
   arabicPosition n i sc = (sc * (6 # 5))%Q).
Proof.
  unfold arabicPosition, inFirstFifth. split; [|split].
  - intros ->. reflexivity.
  - intros H0 ->. apply Nat.eqb_neq in H0. now rewrite H0, Nat.eqb_refl.
  - intros H0 H1 H2. apply Nat.eqb_neq in H0, H1. apply Nat.ltb_lt in H2.
    now rewrite H0, H1, H2.
Qed.

(** C4 (as the code does it).  scoreEnglishSentences and the Arabic
    scorer of summarizer.ts multiply the density of the first and of the
    last sentence by 1.25 and that of any other sentence with
    [10 * index < n] by 1.1 (the Arabic one then applies its marker
    boost).  scoreArabicSentencesBasic and scoreArabicSentencesAdvanced
    multiply the first sentence by 1.5, the last (when not the first)
    by 1.3 and any other sentence with [5 * index < n] by 1.2, before
    their marker boost. *)
Theorem positional_boosts lowerTbl decomp ccc (b : Backends)
  (ss : list str) (i : nat) (s : str) (Hs : nth_error ss i = Some s) :
  let n := length ss in
  (* scoreEnglishSentences *)
  ((3 <= length (englishWords lowerTbl s))%nat ->
   ((i = 0 \/ i = n - 1)%nat ->
    scoreAt (scoreEnglishSentences lowerTbl ss) i s
      (englishDensity lowerTbl ss s * (5 # 4))%Q) /\
   (i <> 0%nat -> i <> (n - 1)%nat -> (10 * i < n)%nat ->
    scoreAt (scoreEnglishSentences lowerTbl ss) i s
      (englishDensity lowerTbl ss s * (11 # 10))%Q))
  /\
  (* scoreArabicSentences of summarizer.ts *)
  ((2 <= length (splitWs s))%nat ->
   ((i = 0 \/ i = n - 1)%nat ->
    scoreAt (scoreArabicSentences ss) i s
      (markerBoost summarizerTerms (23 # 20) s
         (summarizerArabicDensity ss s * (5 # 4))%Q)) /\
   (i <> 0%nat -> i <> (n - 1)%nat -> (10 * i < n)%nat ->
    scoreAt (scoreArabicSentences ss) i s
      (markerBoost summarizerTerms (23 # 20) s
         (summarizerArabicDensity ss s * (11 # 10))%Q)))
  /\
  (* scoreArabicSentencesBasic *)
  ((2 <= length (splitWs s))%nat ->
   (i = 0%nat ->
    scoreAt (scoreArabicSentencesBasic decomp ccc ss) i s
      (markerBoost basicTerms (5 # 4) s (basicDensity decomp ccc ss s * (3 # 2))%Q))
   /\
   (i <> 0%nat -> i = (n - 1)%nat ->
    scoreAt (scoreArabicSentencesBasic decomp ccc ss) i s
      (markerBoost basicTerms (5 # 4) s (basicDensity decomp ccc ss s * (13 # 10))%Q))
   /\
   (i <> 0%nat -> i <> (n - 1)%nat -> (5 * i < n)%nat ->
    scoreAt (scoreArabicSentencesBasic decomp ccc ss) i s
      (markerBoost basicTerms (5 # 4) s (basicDensity decomp ccc ss s * (6 # 5))%Q)))
  /\
  (* scoreArabicSentencesAdvanced *)
  ((20 <= length s)%nat ->
   exists toks l,
     mapM (advancedTokens b) ss = inr toks /\
     scoreArabicSentencesAdvanced decomp ccc b ss = inr l /\
     (i = 0%nat ->
      scoreAt l i s (markerBoost advancedMarkers (13 # 10) s
                       (advancedBase decomp ccc toks i s * (3 # 2))%Q)) /\
     (i <> 0%nat -> i = (n - 1)%nat ->
      scoreAt l i s (markerBoost advancedMarkers (13 # 10) s
                       (advancedBase decomp ccc toks i s * (13 # 10))%Q)) /\
     (i <> 0%nat -> i <> (n - 1)%nat -> (5 * i < n)%nat ->
      scoreAt l i s (markerBoost advancedMarkers (13 # 10) s
                       (advancedBase decomp ccc toks i s * (6 # 5))%Q))).
Proof.
  intros n. split; [|split; [|split]].
  - intros Hw. apply Nat.ltb_ge in Hw.
    unfold scoreAt, scoreEnglishSentences.
    rewrite nth_error_mapIndexed, Hs. simpl. unfold scoreEnglishSentence.
    rewrite Hw. split.
    + intros H. rewrite edgePosition_first_last by exact H. reflexivity.
    + intros H0 H1 H2. rewrite edgePosition_tenth by assumption. reflexivity.
  - intros Hw. apply Nat.ltb_ge in Hw.
    unfold scoreAt, scoreArabicSentences.
    rewrite nth_error_mapIndexed, Hs. simpl. unfold scoreArabicSentence.
    rewrite Hw. split.
    + intros H. rewrite edgePosition_first_last by exact H. reflexivity.
    + intros H0 H1 H2. rewrite edgePosition_tenth by assumption. reflexivity.
  - intros Hw. apply Nat.ltb_ge in Hw.
    unfold scoreAt, scoreArabicSentencesBasic.
    rewrite nth_error_mapIndexed, Hs. simpl. unfold scoreBasicSentence.
    rewrite Hw.
    destruct (arabicPosition_cases n i
                (basicDensity decomp ccc ss s)) as [P0 [P1 P2]].
    unfold basicDensity in P0, P1, P2. fold n.
    split; [|split].
    + intros H. rewrite P0 by exact H. reflexivity.
    + intros H0 H1. rewrite P1 by assumption. reflexivity.
    + intros H0 H1 H2. rewrite P2 by assumption. reflexivity.
  - intros Hl. apply Nat.ltb_ge in Hl.
    destruct (scoreArabicSentencesAdvanced_total decomp ccc b ss)
      as [toks [Ht [_ Hr]]].
    exists toks. eexists. split; [exact Ht|]. split; [exact Hr|].
    unfold scoreAt. rewrite nth_error_mapIndexed, Hs. simpl.
    unfold scoreAdvancedSentence. rewrite Hl.
    destruct (arabicPosition_cases n i
                (advancedBase decomp ccc toks i s)) as [P0 [P1 P2]].
    unfold advancedBase in P0, P1, P2. fold n.
    split; [|split].
    + intros H. rewrite P0 by exact H. reflexivity.
    + intros H0 H1. rewrite P1 by assumption. reflexivity.
    + intros H0 H1 H2. rewrite P2 by assumption. reflexivity.
Qed.

(** Two Arabic sentences: "كتب كتب" and "قرأ". *)
Definition arPair : list str :=
  [[1603; 1578; 1576; 32; 1603; 1578; 1576]; [1602; 1585; 1571]].

Lemma positional_boosts_witness :
  nth_error arPair 0 = Some (hd [] arPair) /\
  ((2 <= length (splitWs (hd [] arPair)))%nat ->
   (0 = 0 \/ 0 = length arPair - 1)%nat ->
   scoreAt (scoreArabicSentences arPair) 0 (hd [] arPair)
     (markerBoost summarizerTerms (23 # 20) (hd [] arPair)
        (summarizerArabicDensity arPair (hd [] arPair) * (5 # 4))%Q)).
Proof.
  split; [reflexivity|].
  intros Hw Hi.
  destruct (positional_boosts asciiLower arabicDecomp arabicCcc noBackends
              arPair 0 (hd [] arPair) eq_refl) as [_ [HA _]].
  exact (proj1 (HA Hw) Hi).
Defined.

(** C4 as stated fails for the Arabic scorer of summarizer.ts (the one
    summarizeText uses): the first sentence of [arPair] has density 2
    and gets score 5/2 = 2 * 1.25, not 2 * 1.5. *)
Lemma positional_boosts_counterexample :
  (summarizerArabicDensity arPair (hd [] arPair) == 2)%Q /\
  scoreAt (scoreArabicSentences arPair) 0 (hd [] arPair) ((4 # 2) * (5 # 4))%Q /\
  ~ (exists sc, scoreAt (scoreArabicSentences arPair) 0 (hd [] arPair) sc /\
                (sc == summarizerArabicDensity arPair (hd [] arPair) * (3 # 2))%Q).
Proof.
  split; [vm_compute; reflexivity|].
  split; [vm_compute; reflexivity|].
  intros [sc [Hsc Heq]]. unfold scoreAt in Hsc. vm_compute in Hsc.
  injection Hsc as <-. vm_compute in Heq. discriminate.
Qed.

(* ------------------------------------------------------------------ *)
(** ** C5: a throwing backend degrades to whitespace splitting *)

Lemma advancedTokens_throws b s :
  backendThrows b s = true -> advancedTokens b s = inr (splitWs s, []).
Proof.
  unfold backendThrows, advancedTokens, tokenizeWith.
  destruct (arabicNLP b) as [seg|].
  { destruct (seg s); simpl; [reflexivity|discriminate]. }
  destruct (nodeArabic b) as [f|];
    [destruct (f s); simpl; [reflexivity|discriminate]|].
  destruct (arWordTokenizer b) as [f|];
    [destruct (f s); simpl; [reflexivity|discriminate]|].
  destruct (arabicWordnet b) as [f|];
    [destruct (f s); simpl; [reflexivity|discriminate]|].
  discriminate.
Qed.

Lemma mapM_nth {A B} (f : A -> exn + B) l ys i x :
  mapM f l = inr ys -> nth_error l i = Some x ->
  exists y, nth_error ys i = Some y /\ f x = inr y.
Proof.
  revert ys i. induction l as [|a r IH]; intros ys i Hm Hi.
  - destruct i; discriminate.
  - simpl in Hm. destruct (f a) as [e|y] eqn:Hfa; [discriminate|].
    simpl in Hm. destruct (mapM f r) as [e|ys'] eqn:Hr; [discriminate|].
    simpl in Hm. injection Hm as <-.
    destruct i as [|i]; simpl in Hi |- *.
    + injection Hi as <-. eauto.
    + eauto.
Qed.

(** C5.  With any backends, scoreArabicSentencesAdvanced completes
    (never throws).  Each sentence is tokenized on its own: its entry in
    the token list is what the tokenization step gives for that sentence
    alone, and when the selected backend throws on it, its words are the
    whitespace split of the sentence (with no nouns). *)
Theorem backend_failure_falls_back decomp ccc (b : Backends) (ss : list str) :
  exists toks,
    mapM (advancedTokens b) ss = inr toks /\
    length toks = length ss /\
    (forall i s, nth_error ss i = Some s ->
       exists wn, nth_error toks i = Some wn /\ advancedTokens b s = inr wn /\
                  (backendThrows b s = true -> wn = (splitWs s, []))) /\
    scoreArabicSentencesAdvanced decomp ccc b ss =
      inr (mapIndexed (scoreAdvancedSentence decomp ccc
             (advancedFrequency decomp ccc toks) toks (length ss)) 0 ss).
Proof.
  destruct (scoreArabicSentencesAdvanced_total decomp ccc b ss)
    as [toks [Ht [Hlen Hr]]].
  exists toks. split; [exact Ht|]. split; [exact Hlen|]. split; [|exact Hr].
  intros i s Hs.
  destruct (mapM_nth _ _ _ _ _ Ht Hs) as [wn [Hn Hwn]].
  exists wn. split; [exact Hn|]. split; [exact Hwn|].
  intros Hth. rewrite advancedTokens_throws in Hwn by exact Hth.
  injection Hwn as <-. reflexivity.
Qed.

(** A segmenter that throws on sentences containing "!" and otherwise
    returns an analysis with one token and one noun. *)
Definition flakySegment (s : str) : exn + option Analysis :=
  if existsb (fun c => c =? 33) s then throw BackendError
  else ret (Some (mkAnalysis (Some [s]) (Some [s]))).

Definition flakyBackends : Backends := mkBackends (Some flakySegment) None None None.

Definition flakyDoc : list str := [s2z "alpha beta!"; s2z "gamma delta"].

Lemma backend_failure_falls_back_witness :
  exists toks,
    mapM (advancedTokens flakyBackends) flakyDoc = inr toks /\
    nth_error toks 0 = Some (splitWs (s2z "alpha beta!"), []) /\
    nth_error toks 1 = Some ([s2z "gamma delta"], [s2z "gamma delta"]).
Proof.
  destruct (backend_failure_falls_back arabicDecomp arabicCcc flakyBackends
              flakyDoc) as [toks [Ht [_ [Hi _]]]].
  exists toks. split; [exact Ht|].
  destruct (Hi 0%nat (s2z "alpha beta!") eq_refl) as [wn [Hn [_ Hth]]].
  split.
  - rewrite Hn. f_equal. apply Hth. reflexivity.
  - destruct (Hi 1%nat (s2z "gamma delta") eq_refl) as [wn' [Hn' [Hw' _]]].
    rewrite Hn'. vm_compute in Hw'. injection Hw' as <-. reflexivity.
Defined.

(* ------------------------------------------------------------------ *)
(** ** C6: failure path of summarizeText *)

(** C6 (as the code does it).  summarizeText (for any segmentation and
    scoring steps, failing or not) always returns a string: the empty
    string for blank input; when segmentation or scoring throws, the
    text split on ".", cut to the first sentenceCount pieces, re-joined
    on "." and then TRIMMED, or the original text if that is empty. *)
Theorem summarize_failure_fallback (segment : str -> exn + list str)
  (scoreFor : str -> list str -> exn + list Sentence) (text : str) (k : Z) :
  (isBlank text = true -> summarizeTextWith segment scoreFor text k = []) /\
  (forall e, isBlank text = false -> segment text = inl e ->
     summarizeTextWith segment scoreFor text k = truncateFallback text k) /\
  (forall ss e, isBlank text = false -> segment text = inr ss ->
     k < Z.of_nat (length ss) -> scoreFor text ss = inl e ->
     summarizeTextWith segment scoreFor text k = truncateFallback text k) /\
  truncateFallback text k =
    (if nonEmpty (trim (join [46] (slice0 (splitChar 46 text) k)))
     then trim (join [46] (slice0 (splitChar 46 text) k)) else text).
Proof.
  unfold summarizeTextWith, summarizeTextBody.
  split; [|split; [|split]].
  - intros ->. reflexivity.
  - intros e -> ->. reflexivity.
  - intros ss e -> -> Hk Hs. simpl.
    replace (Z.of_nat (length ss) <=? k) with false
      by (symmetry; apply Z.leb_gt; lia).
    rewrite Hs. reflexivity.
  - reflexivity.
Qed.

Definition failSegment (_ : str) : exn + list str := throw TypeError.
Definition noScore (_ : str) (_ : list str) : exn + list Sentence := ret [].

Lemma summarize_failure_fallback_witness :
  isBlank (s2z " a.b") = false /\ failSegment (s2z " a.b") = inl TypeError /\
  summarizeTextWith failSegment noScore (s2z " a.b") 1
    = truncateFallback (s2z " a.b") 1.
Proof.
  split; [reflexivity|]. split; [reflexivity|].
  destruct (summarize_failure_fallback failSegment noScore (s2z " a.b") 1)
    as [_ [H _]].
  apply (H TypeError); reflexivity.
Defined.

(** C6 as stated fails: the fallback is trimmed.  On " a.b" with one
    sentence requested and a failing segmentation, the result is "a",
    not the untrimmed " a" the plain split/slice/join gives. *)
Lemma summarize_failure_fallback_counterexample :
  summarizeTextWith failSegment noScore (s2z " a.b") 1 = s2z "a" /\
  join [46] (slice0 (splitChar 46 (s2z " a.b")) 1) = s2z " a" /\
  s2z "a" <> s2z " a".
Proof.
  split; [vm_compute; reflexivity|].
  split; [vm_compute; reflexivity|].
  vm_compute. discriminate.
Qed.

(* ------------------------------------------------------------------ *)
(** ** C7: filterResultFields *)

Lemma filterByList_fold (r base : record) (fs : list string) :
  (forall k, base !! k = None \/ base !! k = r !! k) ->
  forall k,
    fold_left (fun acc field =>
      match r !! field with
      | Some v => <[field := v]> acc
      | None => acc
      end) fs base !! k
    = if bool_decide (k ∈ fs) then r !! k else base !! k.
Proof.
  revert base. induction fs as [|f fs IH]; intros base Hb k; cbn [fold_left].
  - rewrite bool_decide_false by set_solver. reflexivity.
  - rewrite IH.
    2:{ intros k'. destruct (r !! f) as [v|] eqn:Hf; [|apply Hb].
        destruct (decide (k' = f)) as [->|Hne].
        - rewrite lookup_insert_eq. right. symmetry. exact Hf.
        - rewrite lookup_insert_ne by congruence. apply Hb. }
    destruct (decide (k ∈ fs)) as [Hin|Hnin].
    + rewrite !bool_decide_true by set_solver. reflexivity.
    + rewrite (bool_decide_false (k ∈ fs)) by exact Hnin.
      destruct (decide (k = f)) as [->|Hne].
      * rewrite bool_decide_true by set_solver.
        destruct (r !! f) as [v|] eqn:Hf.
        -- apply lookup_insert_eq.
        -- destruct (Hb f) as [H|H]; rewrite H; [reflexivity|exact Hf].
      * rewrite bool_decide_false by set_solver.
        destruct (r !! f); [|reflexivity].
        apply lookup_insert_ne. congruence.
Qed.

Lemma existsb_ok_elem (fs : list string) :
  existsb (String.eqb "ok") fs = bool_decide ("ok" ∈ fs).
Proof.
  destruct (existsb (String.eqb "ok") fs) eqn:He; symmetry.
  - apply bool_decide_true. apply existsb_exists in He as [x [Hx Heq]].
    apply String.eqb_eq in Heq. subst x. apply list_elem_of_In. exact Hx.
  - apply bool_decide_false. intros Hin. apply list_elem_of_In in Hin.
    assert (existsb (String.eqb "ok") fs = true) as Ht
      by (apply existsb_exists; exists "ok"%string; split;
          [exact Hin | apply String.eqb_refl]).
    congruence.
Qed.

Lemma filterByList_lookup (r : record) (v : jsval) (fs : list string) :
  r !! "ok" = Some v -> v <> JUndefined ->
  forall k, filterByList r fs !! k
            = if bool_decide (k = "ok" \/ k ∈ fs) then r !! k else None.
Proof.
  intros Hok Hv k. unfold filterByList.
  assert (okDefined r = true) as Hd.
  { unfold okDefined. rewrite Hok. destruct v; congruence. }
  rewrite Hd, existsb_ok_elem, andb_true_r.
  destruct (decide ("ok" ∈ fs)) as [Hin|Hnin].
  - rewrite (bool_decide_true _ Hin). simpl.
    rewrite filterByList_fold by (intros; left; apply lookup_empty).
    rewrite lookup_empty.
    destruct (decide (k ∈ fs)).
    + rewrite !bool_decide_true by (auto || set_solver). reflexivity.
    + rewrite !bool_decide_false by (auto || set_solver). reflexivity.
  - rewrite (bool_decide_false _ Hnin). simpl. rewrite Hok.
    rewrite filterByList_fold.
    2:{ intros k'. destruct (decide (k' = "ok"%string)) as [->|Hne].
        - right. rewrite lookup_singleton_eq. symmetry. exact Hok.
        - left. apply lookup_singleton_ne. congruence. }
    destruct (decide (k ∈ fs)).
    + rewrite !bool_decide_true by (auto || set_solver). reflexivity.
    + rewrite (bool_decide_false (k ∈ fs)) by auto.
      destruct (decide (k = "ok"%string)) as [->|Hne].
      * rewrite bool_decide_true by auto.
        rewrite lookup_singleton_eq. symmetry. exact Hok.
      * rewrite bool_decide_false by tauto.
        apply lookup_singleton_ne. congruence.
Qed.

(** C7.  For a result whose [ok] field is set (every call site passes
    such a record): include and exclude together throw the configuration
    error; neither returns the record unchanged; an inclusion list (as an
    array or as [{include}]) returns a record holding exactly [ok] and the
    listed fields present in the input, with their input values. *)
Theorem filterResultFields_projection (r : record) (v : jsval)
  (Hok : r !! "ok" = Some v) (Hv : v <> JUndefined) :
  (forall inc exc,
     filterResultFields r (RSObject (Some inc) (Some exc)) = inl ConfigError) /\
  filterResultFields r (RSObject None None) = inr r /\
  (forall fs, exists out,
     filterResultFields r (RSList fs) = inr out /\
     filterResultFields r (RSObject (Some fs) None) = inr out /\
     forall k, out !! k = if bool_decide (k = "ok" \/ k ∈ fs) then r !! k else None).
Proof.
  split; [reflexivity|]. split; [reflexivity|].
  intros fs. exists (filterByList r fs).
  split; [reflexivity|]. split; [reflexivity|].
  apply filterByList_lookup with v; assumption.
Qed.

Definition sampleResult : record :=
  <[ "ok" := JBool true ]> (<[ "summary" := JStr "text" ]>
    (<[ "topics" := JStrs ["a"] ]> ∅)).

Lemma filterResultFields_projection_witness :
  sampleResult !! "ok" = Some (JBool true) /\ JBool true <> JUndefined /\
  filterResultFields sampleResult (RSObject (Some ["summary"]) (Some ["topics"]))
    = inl ConfigError.
Proof.
  assert (H1 : sampleResult !! "ok" = Some (JBool true)) by reflexivity.
  assert (H2 : JBool true <> JUndefined) by discriminate.
  split; [exact H1|]. split; [exact H2|].
  apply (filterResultFields_projection sampleResult (JBool true) H1 H2).
Defined.

(* ------------------------------------------------------------------ *)
(** ** C8: normalization is idempotent *)



Section Canonical.
Variable ccc : Z -> nat.



















End Canonical.








(* ------------------------------------------------------------------ *)
(** ** C9: non-empty output *)










(* ------------------------------------------------------------------ *)
(** ** C10: the synchronous entry point keeps at most five sentences *)

Definition prevPunct (p : option Z) : bool :=
  match p with Some d => is_latin_punct d | None => false end.

(** Number of places where [/(?<=[.!?])\s+/] matches in [s] read after
    the character [prev]: each whitespace character that follows one of
    [. ! ?] starts a separator. *)
Fixpoint boundaries (prev : option Z) (s : str) : nat :=
  match s with
  | [] => 0%nat
  | c :: t => ((if is_ws c && prevPunct prev then 1 else 0) + boundaries (Some c) t)%nat
  end.

Definition lastOr (p : option Z) (s : str) : option Z :=
  fold_left (fun _ c => Some c) s p.

Lemma ws_not_punct c : is_ws c = true -> is_latin_punct c = false.
Proof.
  intros Hw. destruct (is_latin_punct c) eqn:E; [|reflexivity].
  unfold is_latin_punct in E.
  apply orb_true_iff in E as [E|E]; [apply orb_true_iff in E as [E|E]|];
    apply Z.eqb_eq in E; subst c; discriminate Hw.
Qed.

Lemma splitLatin_aux_length s cur prev inrun :
  (inrun = true -> prevPunct prev = false) ->
  length (splitLatin_aux s cur prev inrun) = S (boundaries prev s).
Proof.
  revert cur prev inrun.
  induction s as [|c t IH]; intros cur prev inrun Hinv; [reflexivity|].
  cbn [splitLatin_aux boundaries].
  change (match prev with Some d => is_latin_punct d | None => false end)
    with (prevPunct prev).
  destruct (inrun && is_ws c) eqn:E1.
  - apply andb_true_iff in E1 as [Hr Hw].
    rewrite IH by (intros _; apply ws_not_punct, Hw).
    rewrite Hw, (Hinv Hr). reflexivity.
  - destruct (is_ws c && prevPunct prev) eqn:E2.
    + apply andb_true_iff in E2 as [Hw _]. cbn [length].
      rewrite IH by (intros _; apply ws_not_punct, Hw). reflexivity.
    + rewrite IH by discriminate. reflexivity.
Qed.

Lemma boundaries_app p x y :
  boundaries p (x ++ y) = (boundaries p x + boundaries (lastOr p x) y)%nat.
Proof.
  revert p. induction x as [|c x IH]; intros p; [reflexivity|].
  cbn [app boundaries]. rewrite IH. unfold lastOr. simpl. lia.
Qed.

Lemma lastOr_snoc p x d : lastOr p (x ++ [d]) = Some d.
Proof. unfold lastOr. rewrite fold_left_app. reflexivity. Qed.

Lemma boundaries_none_le q s : (boundaries None s <= boundaries q s)%nat.
Proof. destruct s as [|c t]; simpl; [lia|]. rewrite andb_false_r. lia. Qed.

Lemma boundaries_nonpunct p s :
  prevPunct p = false -> boundaries p s = boundaries None s.
Proof.
  intros H. destruct s as [|c t]; [reflexivity|]. simpl.
  rewrite H, andb_false_r. reflexivity.
Qed.

Lemma boundaries_no_punct p s :
  prevPunct p = false -> (forall c, In c s -> is_latin_punct c = false) ->
  boundaries p s = 0%nat.
Proof.
  revert p. induction s as [|c t IH]; intros p Hp Hs; [reflexivity|].
  simpl. rewrite Hp, andb_false_r. apply IH.
  - apply Hs. left. reflexivity.
  - intros d Hd. apply Hs. right. exact Hd.
Qed.

Lemma dropWhile_suffix p s : exists a, s = a ++ dropWhile p s.
Proof.
  induction s as [|c t IH]; simpl; [exists []; reflexivity|].
  destruct (p c); [|exists []; reflexivity].
  destruct IH as [a Ha]. exists (c :: a). simpl. f_equal. exact Ha.
Qed.

Lemma trim_infix s : exists a b, s = a ++ trim s ++ b.
Proof.
  destruct (dropWhile_suffix is_ws s) as [a Ha].
  set (u := dropWhile is_ws s) in *.
  destruct (dropWhile_suffix is_ws (rev u)) as [a' Ha'].
  set (D := dropWhile is_ws (rev u)) in *.
  exists a, (rev a'). unfold trim. fold u. fold D. rewrite Ha at 1. f_equal.
  rewrite <- (rev_involutive u), Ha', rev_app_distr. reflexivity.
Qed.

Lemma trim_chars s c : In c (trim s) -> In c s.
Proof.
  intros H. destruct (trim_infix s) as [a [b Hs]]. rewrite Hs.
  apply in_or_app. right. apply in_or_app. left. exact H.
Qed.

Lemma boundaries_trim s : (boundaries None (trim s) <= boundaries None s)%nat.
Proof.
  destruct (trim_infix s) as [a [b Hs]]. rewrite Hs at 2.
  rewrite !boundaries_app.
  pose proof (boundaries_none_le (lastOr None a) (trim s)). lia.
Qed.

(** Inside a piece of the split no separator is left. *)
Lemma splitLatin_pieces s cur prev inrun :
  boundaries None (rev cur) = 0%nat ->
  (inrun = true -> cur = []) ->
  (forall d r, cur = d :: r -> prev = Some d) ->
  forall x, In x (splitLatin_aux s cur prev inrun) -> boundaries None x = 0%nat.
Proof.
  revert cur prev inrun.
  induction s as [|c t IH]; intros cur prev inrun Hb Hr Hp x Hx.
  - destruct Hx as [<-|[]]. exact Hb.
  - cbn [splitLatin_aux] in Hx.
    change (match prev with Some d => is_latin_punct d | None => false end)
      with (prevPunct prev) in Hx.
    destruct (inrun && is_ws c) eqn:E1.
    + apply andb_true_iff in E1 as [E1 _].
      specialize (Hr E1). subst cur.
      apply (IH [] (Some c) true); auto. discriminate.
    + destruct (is_ws c && prevPunct prev) eqn:E2.
      * destruct Hx as [<-|Hx]; [exact Hb|].
        apply (IH [] (Some c) true); auto. discriminate.
      * apply (IH (c :: cur) (Some c) false); auto.
        -- simpl. rewrite boundaries_app, Hb.
           destruct cur as [|d r]; [simpl; rewrite andb_false_r; reflexivity|].
           simpl rev. rewrite lastOr_snoc. rewrite (Hp d r eq_refl) in E2.
           cbn [boundaries]. rewrite E2. reflexivity.
        -- discriminate.
        -- intros d r Heq. injection Heq as -> _. reflexivity.
Qed.

Lemma splitLatin_chars s cur prev inrun x c :
  In x (splitLatin_aux s cur prev inrun) -> In c x -> In c s \/ In c cur.
Proof.
  revert cur prev inrun.
  induction s as [|d t IH]; intros cur prev inrun Hx Hc.
  - destruct Hx as [<-|[]]. right. apply in_rev. exact Hc.
  - cbn [splitLatin_aux] in Hx.
    destruct (inrun && is_ws d).
    + destruct (IH _ _ _ Hx Hc); [left; right|right]; assumption.
    + destruct (is_ws d && _).
      * destruct Hx as [<-|Hx].
        -- right. apply in_rev. exact Hc.
        -- destruct (IH _ _ _ Hx Hc) as [H|[]]. left. right. exact H.
      * destruct (IH _ _ _ Hx Hc) as [H|[H|H]].
        -- left. right. exact H.
        -- left. left. exact H.
        -- right. exact H.
Qed.

Lemma splitRuns_pieces p s cur inrun :
  (forall c, In c cur -> p c = false) ->
  forall x, In x (splitRuns_aux p s cur inrun) -> forall c, In c x -> p c = false.
Proof.
  revert cur inrun.
  induction s as [|d t IH]; intros cur inrun Hcur x Hx c Hc.
  - destruct Hx as [<-|[]]. apply Hcur, in_rev, Hc.
  - cbn [splitRuns_aux] in Hx. destruct (p d) eqn:Hd.
    + destruct inrun.
      * exact (IH cur true Hcur x Hx c Hc).
      * destruct Hx as [<-|Hx].
        -- apply Hcur, in_rev, Hc.
        -- refine (IH [] true _ x Hx c Hc). intros ? [].
    + refine (IH (d :: cur) false _ x Hx c Hc).
      intros e [<-|He]; [exact Hd|apply Hcur, He].
Qed.

Lemma splitRuns_no_sep p s cur inrun :
  (forall c, In c s -> p c = false) ->
  splitRuns_aux p s cur inrun = [rev cur ++ s].
Proof.
  revert cur inrun.
  induction s as [|d t IH]; intros cur inrun Hs; simpl.
  - rewrite app_nil_r. reflexivity.
  - rewrite (Hs d (or_introl eq_refl)).
    rewrite IH by (intros c Hc; apply Hs; right; exact Hc).
    simpl. rewrite <- app_assoc. reflexivity.
Qed.

Lemma join_chars (L : list str) c :
  In c (join [32%Z] L) -> c = 32 \/ exists x, In x L /\ In c x.
Proof.
  induction L as [|x r IH]; simpl; [intros []|].
  destruct r as [|y r].
  - intros H. right. exists x. split; [left; reflexivity|exact H].
  - intros H. apply in_app_or in H as [H|[H|H]].
    + right. exists x. split; [left; reflexivity|exact H].
    + left. symmetry. exact H.
    + destruct (IH H) as [H1|[z [Hz Hcz]]]; [left; exact H1|].
      right. exists z. split; [right; exact Hz|exact Hcz].
Qed.

Lemma boundaries_join (L : list str) :
  (forall x, In x L -> boundaries None x = 0%nat) -> L <> [] ->
  (S (boundaries None (join [32%Z] L)) <= length L)%nat.
Proof.
  induction L as [|x r IH]; intros Hall Hne; [congruence|].
  destruct r as [|y r].
  - simpl. rewrite (Hall x (or_introl eq_refl)). lia.
  - change (join [32%Z] (x :: y :: r)) with (x ++ [32] ++ join [32%Z] (y :: r)).
    rewrite boundaries_app, (Hall x (or_introl eq_refl)).
    cbn [app boundaries].
    rewrite (boundaries_nonpunct (Some 32%Z)) by reflexivity.
    assert (S (boundaries None (join [32%Z] (y :: r))) <= length (y :: r))%nat.
    { apply IH; [|discriminate]. intros z Hz. apply Hall. right. exact Hz. }
    destruct (is_ws 32 && prevPunct (lastOr None x)); simpl in *; lia.
Qed.

Lemma in_sentences (l : list str) x :
  In x (map trim (List.filter nonEmpty l)) -> exists p, In p l /\ x = trim p.
Proof.
  intros H. apply in_map_iff in H as [p [<- Hp]].
  apply filter_In in Hp as [Hp _]. exists p. split; [exact Hp|reflexivity].
Qed.

Lemma sentences_length (l : list str) :
  (length (map trim (List.filter nonEmpty l)) <= length l)%nat.
Proof.
  rewrite length_map. induction l as [|a l IH]; simpl; [lia|].
  destruct (nonEmpty a); simpl; lia.
Qed.

Lemma extractSentences_nil detectAr : extractSentences detectAr [] = [].
Proof. unfold extractSentences. destruct (isArabic detectAr []); reflexivity. Qed.

Section Resegment.
Variable detectAr : str -> bool.
Hypothesis Hdet : forall t, hasArabicChars t = false -> detectAr t = false.

Lemma no_arabic_chars s :
  (forall c, In c s -> is_arabic_block c = false) -> hasArabicChars s = false.
Proof.
  intros H. unfold hasArabicChars.
  destruct (existsb is_arabic_block s) eqn:E; [|reflexivity].
  apply existsb_exists in E as [c [Hc Hb]]. rewrite (H c Hc) in Hb. discriminate.
Qed.

(** Joining sentences of a text with single spaces and segmenting the
    result again gives no more sentences than were joined. *)
Lemma resegment_count text (L : list str) :
  (forall x, In x L -> In x (extractSentences detectAr text)) ->
  (length (extractSentences detectAr (join [32%Z] L)) <= length L)%nat.
Proof.
  intros HL. destruct L as [|x0 L0] eqn:EL.
  { cbn [join]. rewrite extractSentences_nil. cbn [length]. lia. }
  rewrite <- EL in *. assert (Hne : L <> []) by (rewrite EL; discriminate).
  clear x0 L0 EL.
  unfold extractSentences in HL.
  destruct (isArabic detectAr text) eqn:Ht.
  - (* Arabic segmentation: the sentences hold no stop character *)
    assert (Hns : forall c, In c (join [32%Z] L) -> is_arabic_stop c = false).
    { intros c Hc. apply join_chars in Hc as [->|[x [Hx Hcx]]]; [reflexivity|].
      apply HL in Hx. apply in_sentences in Hx as [p [Hp ->]].
      apply trim_chars in Hcx.
      refine (splitRuns_pieces is_arabic_stop text [] false _ p Hp c Hcx).
      intros ? []. }
    assert (length (extractSentences detectAr (join [32%Z] L)) <= 1)%nat.
    { unfold extractSentences.
      destruct (isArabic detectAr (join [32%Z] L)).
      - etransitivity; [apply sentences_length|].
        unfold splitRuns. rewrite splitRuns_no_sep by exact Hns. simpl. lia.
      - etransitivity; [apply sentences_length|].
        unfold splitLatin. rewrite splitLatin_aux_length by discriminate.
        rewrite boundaries_no_punct; [lia|reflexivity|].
        intros c Hc. specialize (Hns c Hc).
        unfold is_arabic_stop in Hns. unfold is_latin_punct.
        repeat rewrite orb_false_iff in Hns.
        destruct Hns as [[[[[_ _] H1] H2] _] H4].
        rewrite H1, H2, H4. reflexivity. }
    assert (1 <= length L)%nat by (destruct L; [congruence|simpl; lia]).
    lia.
  - (* Latin segmentation *)
    apply orb_false_iff in Ht as [Hchars _].
    assert (Hraw : isArabic detectAr (join [32%Z] L) = false).
    { assert (Hc : hasArabicChars (join [32%Z] L) = false).
      { apply no_arabic_chars. intros c Hc.
        apply join_chars in Hc as [->|[x [Hx Hcx]]]; [reflexivity|].
        apply HL in Hx. apply in_sentences in Hx as [p [Hp ->]].
        apply trim_chars in Hcx.
        destruct (splitLatin_chars text [] None false p c Hp Hcx) as [H|[]].
        unfold hasArabicChars in Hchars.
        destruct (is_arabic_block c) eqn:Eb; [|reflexivity].
        assert (existsb is_arabic_block text = true) as Hx'
          by (apply existsb_exists; exists c; auto).
        congruence. }
      unfold isArabic. rewrite Hc, (Hdet _ Hc). reflexivity. }
    unfold extractSentences. rewrite Hraw.
    etransitivity; [apply sentences_length|].
    unfold splitLatin. rewrite splitLatin_aux_length by discriminate.
    apply boundaries_join; [|exact Hne].
    intros x Hx. apply HL in Hx. apply in_sentences in Hx as [p [Hp ->]].
    pose proof (boundaries_trim p).
    pose proof (splitLatin_pieces text [] None false eq_refl
                  ltac:(discriminate) ltac:(discriminate) p Hp).
    lia.
Qed.

End Resegment.

Lemma topSentences_length k scored :
  (0 <= k)%Z -> (length (topSentences k scored) <= Z.to_nat k)%nat.
Proof.
  intros Hk. unfold topSentences, slice0.
  replace (0 <=? k)%Z with true by (symmetry; apply Z.leb_le; lia).
  rewrite <- (Permutation_length (sortByIndex_perm _)), length_firstn. lia.
Qed.

Lemma slice0_length_le {A} (l : list A) k :
  (0 <= k)%Z -> (length (slice0 l k) <= Z.to_nat k)%nat.
Proof.
  intros Hk. unfold slice0.
  replace (0 <=? k)%Z with true by (symmetry; apply Z.leb_le; lia).
  rewrite length_firstn. lia.
Qed.

Lemma slice0_length_le_list {A} (l : list A) k :
  (length (slice0 l k) <= length l)%nat.
Proof. unfold slice0. destruct (0 <=? k)%Z; rewrite length_firstn; lia. Qed.

Lemma summarizeText_resegmented detectAr lowerTbl
  (Hdet : forall t, hasArabicChars t = false -> detectAr t = false)
  (text : str) (k : Z) (Hk : (0 <= k)%Z) :
  (length (extractSentences detectAr (summarizeText detectAr lowerTbl text k))
     <= Z.to_nat k)%nat.
Proof.
  destruct (isBlank text) eqn:Hb.
  { unfold summarizeText, summarizeTextWith, summarizeTextBody. rewrite Hb.
    rewrite extractSentences_nil. simpl. lia. }
  set (ss := extractSentences detectAr text).
  destruct (Z.leb_spec (Z.of_nat (length ss)) k) as [Hshort|Hlong].
  - unfold summarizeText.
    rewrite (summarizeTextWith_short _ _ _ _ ss Hb); [|reflexivity|exact Hshort].
    fold ss. lia.
  - destruct (summarizeText_normal detectAr lowerTbl text k Hb Hlong)
      as [scored [Hix ->]].
    unfold joinTexts.
    etransitivity.
    + apply (resegment_count detectAr Hdet text).
      intros x Hx. apply in_map_iff in Hx as [s [<- Hs]].
      apply topSentences_in in Hs.
      apply (nth_error_In _ (sindex s)).
      exact (indexed_source ss scored s Hix Hs).
    + rewrite length_map. apply topSentences_length, Hk.
Qed.

(** C10.  For a non-negative sentenceCount, and a language detector that
    does not call a text without any character of the Arabic block
    Arabic, the synchronous [summarize] keeps at most five sentences
    (and at most sentenceCount) in its summary, whatever the input. *)
Theorem summary_capped_at_five detectAr lowerTbl
  (Hdet : forall t, hasArabicChars t = false -> detectAr t = false)
  (cleanedText : str) (sentenceCount : Z) (Hsc : (0 <= sentenceCount)%Z) :
  (length (limitedSentences detectAr lowerTbl cleanedText sentenceCount) <= 5)%nat /\
  (length (limitedSentences detectAr lowerTbl cleanedText sentenceCount)
     <= Z.to_nat sentenceCount)%nat.
Proof.
  unfold limitedSentences. split.
  - etransitivity; [apply slice0_length_le_list|].
    etransitivity; [apply summarizeText_resegmented; [exact Hdet|lia]|]. lia.
  - apply slice0_length_le, Hsc.
Qed.

Definition eightSentences : str :=
  s2z ("Alpha one two. Beta three four. Gamma five six. Delta seven eight. "
       ++ "Epsilon nine ten. Zeta eleven twelve. Eta thirteen fourteen. "
       ++ "Theta fifteen sixteen.").

Lemma summary_capped_at_five_witness :
  (forall t, hasArabicChars t = false -> noDetect t = false) /\
  (length (limitedSentences noDetect asciiLower eightSentences 7) <= 5)%nat.
Proof.
  assert (Hd : forall t, hasArabicChars t = false -> noDetect t = false)
    by reflexivity.
  split; [exact Hd|].
  apply (summary_capped_at_five noDetect asciiLower Hd eightSentences 7). lia.
Defined.

(** C10 as stated fails for a negative sentenceCount: with -1 both
    slices drop only the last element, and an eight-sentence text of
    more than 100 characters keeps six sentences. *)
Lemma summary_capped_at_five_counterexample :
  (100 <= length eightSentences)%nat /\
  length (extractSentences noDetect eightSentences) = 8%nat /\
  length (limitedSentences noDetect asciiLower eightSentences (-1)) = 6%nat.
Proof.
  repeat split; vm_compute; try reflexivity. lia.
Qed.

(* ================================================================== *)
(** * Text cleaning (textPreprocessing.ts, unnamed/part_001) *)

(** Case-insensitive comparison of the non-unicode [i] flag against an
    ASCII pattern character: only ASCII letters fold (a non-ASCII code
    unit whose upper case is ASCII is left alone by Canonicalize). *)
Definition lowerAscii (c : Z) : Z :=
  if (65 <=? c) && (c <=? 90) then c + 32 else c.

Definition ciEq (c p : Z) : bool := lowerAscii c =? lowerAscii p.

Definition isAsciiLetter (c : Z) : bool :=
  ((65 <=? c) && (c <=? 90)) || ((97 <=? c) && (c <=? 122)).

(** Match the literal [pat] at the start of [s]; the rest on success. *)
Fixpoint prefixCI (pat s : str) : option str :=
  match pat with
  | [] => Some s
  | p :: pt =>
      match s with
      | [] => None
      | c :: t => if ciEq c p then prefixCI pt t else None
      end
  end.

Fixpoint prefixCS (pat s : str) : option str :=
  match pat with
  | [] => Some s
  | p :: pt =>
      match s with
      | [] => None
      | c :: t => if c =? p then prefixCS pt t else None
      end
  end.

(** [[^>]*>]: the rest after the first [>]. *)
Fixpoint afterGt (s : str) : option str :=
  match s with
  | [] => None
  | c :: t => if c =? 62 then Some t else afterGt t
  end.

(** [[\s\S]*?pat]: the rest after the first occurrence of [pat]. *)
Fixpoint findAfterCI (pat s : str) : option str :=
  match prefixCI pat s with
  | Some r => Some r
  | None => match s with [] => None | _ :: t => findAfterCI pat t end
  end.

Definition orElse {A} (a b : option A) : option A :=
  match a with Some _ => a | None => b end.

(** A global [replace]: at each position the matcher [m] is tried; on a
    match the replacement is emitted and the scan resumes after it,
    otherwise the code unit is copied.  Every matcher below consumes at
    least one code unit, so [length s] steps suffice. *)
Fixpoint gsubF (fuel : nat) (m : str -> option str) (rep s : str) : str :=
  match fuel with
  | O => s
  | S f =>
      match s with
      | [] => []
      | c :: t =>
          match m s with
          | Some rest => rep ++ gsubF f m rep rest
          | None => c :: gsubF f m rep t
          end
      end
  end.

Definition gsub (m : str -> option str) (rep s : str) : str :=
  gsubF (length s) m rep s.

(** [(?!h1|h2|h3|h4|h5|h6|p|li|ul|ol)] fails on these prefixes. *)
Definition keptTags : list str :=
  [[104; 49]; [104; 50]; [104; 51]; [104; 52]; [104; 53]; [104; 54];
   [112]; [108; 105]; [117; 108]; [111; 108]].

Definition keptTagAhead (s : str) : bool :=
  existsb (fun w => match prefixCI w s with Some _ => true | None => false end)
    keptTags.

(** [<name[^>]*>[\s\S]*?<\/name>] *)
Definition tagBlock (name : str) (s : str) : option str :=
  match prefixCI (60 :: name) s with
  | None => None
  | Some r =>
      match afterGt r with
      | None => None
      | Some r' => findAfterCI ([60; 47] ++ name ++ [62]) r'
      end
  end.

(** [<(?!h1|...|ol)[^>]*>] *)
Definition otherOpenTag (s : str) : option str :=
  match s with
  | c :: t => if c =? 60 then (if keptTagAhead t then None else afterGt t)
              else None
  | [] => None
  end.

(** [<\/(?!h1|...|ol)[^>]*>] *)
Definition otherCloseTag (s : str) : option str :=
  match s with
  | c :: d :: t =>
      if (c =? 60) && (d =? 47) then (if keptTagAhead t then None else afterGt t)
      else None
  | _ => None
  end.

(** Line 68: style and script blocks and every tag except the kept ones. *)
Definition stripTags (s : str) : option str :=
  orElse (tagBlock (s2z "style") s)
    (orElse (tagBlock (s2z "script") s)
       (orElse (otherOpenTag s) (otherCloseTag s))).

(** Line 71: [/<\/(h1|h2|h3|h4|h5|h6|p|li)>/gi] *)
Definition boundaryTags : list str :=
  [[104; 49]; [104; 50]; [104; 51]; [104; 52]; [104; 53]; [104; 54];
   [112]; [108; 105]].

Definition closingBoundary (s : str) : option str :=
  match prefixCI [60; 47] s with
  | None => None
  | Some r =>
      fold_right (fun w acc => orElse (prefixCI (w ++ [62]) r) acc) None
        boundaryTags
  end.

(** Line 72: [/<(br|hr)[^>]*>/gi] *)
Definition breakTag (s : str) : option str :=
  match prefixCI (s2z "<br") s with
  | Some r => match afterGt r with Some r' => Some r' | None =>
                match prefixCI (s2z "<hr") s with
                | Some r2 => afterGt r2 | None => None end end
  | None => match prefixCI (s2z "<hr") s with
            | Some r2 => afterGt r2 | None => None end
  end.

(** Line 75: [/<[^>]*>/g] *)
Definition anyTag (s : str) : option str :=
  match s with c :: t => if c =? 60 then afterGt t else None | [] => None end.

(** [/\s+/g] *)
Definition wsRun (s : str) : option str :=
  match s with
  | c :: t => if is_ws c then Some (dropWhile is_ws t) else None
  | [] => None
  end.

(** [/<\/?[a-z][\s\S]*>/i.test(text)] *)
Definition htmlAt (t : str) : bool :=
  match t with
  | l :: r =>
      (isAsciiLetter l && existsb (Z.eqb 62) r)
      || ((l =? 47) && match r with
                       | l' :: r' => isAsciiLetter l' && existsb (Z.eqb 62) r'
                       | [] => false
                       end)
  | [] => false
  end.

Fixpoint looksLikeHtml (s : str) : bool :=
  match s with
  | [] => false
  | c :: t => ((c =? 60) && htmlAt t) || looksLikeHtml t
  end.

Definition isHigh (c : Z) : bool := (55296 <=? c) && (c <=? 56319).
Definition isLow (c : Z) : bool := (56320 <=? c) && (c <=? 57343).
Definition codePoint (h l : Z) : Z := 65536 + (h - 55296) * 1024 + (l - 56320).

Section Clean.
(** [lnp cp]: the code point [cp] is in \p{L}, \p{N} or \p{P}
    (Unicode tables). *)
Variable lnp : Z -> bool.

Definition keepCp (cp : Z) : bool := lnp cp || is_ws cp.

(** [/[^\p{L}\p{N}\p{P}\s]/gu] replaced by '': the [u] flag reads a
    surrogate pair as one code point. *)
Fixpoint removeSpecial (s : str) : str :=
  match s with
  | [] => []
  | c :: t =>
      if isHigh c then
        match t with
        | d :: t' =>
            if isLow d then
              if keepCp (codePoint c d) then c :: d :: removeSpecial t'
              else removeSpecial t'
            else if keepCp c then c :: removeSpecial t else removeSpecial t
        | [] => if keepCp c then [c] else []
        end
      else if keepCp c then c :: removeSpecial t else removeSpecial t
  end.

Variable detectAr : str -> bool.
(** [arajs.sanitize], or the identity when arajs is missing; a throw is
    caught by sanitizeArabicText. *)
Variable sanitize : str -> exn + str.

Definition sanitizeArabicText (text : str) : str :=
  match sanitize text with inl _ => text | inr r => r end.

Definition arabicFinish (cleaned : str) : str :=
  if isArabic detectAr cleaned then sanitizeArabicText cleaned else cleaned.

Definition entities (s : str) : str :=
  let s := gsub (prefixCS (s2z "&nbsp;")) [32] s in
  let s := gsub (prefixCS (s2z "&amp;")) [38] s in
  let s := gsub (prefixCS (s2z "&lt;")) [60] s in
  let s := gsub (prefixCS (s2z "&gt;")) [62] s in
  let s := gsub (prefixCS (s2z "&quot;")) [34] s in
  gsub (prefixCS (s2z "&#39;")) [39] s.

Definition cleanHtml (text : str) : str :=
  let cleaned := gsub stripTags [] text in
  let cleaned := gsub closingBoundary [46; 32] cleaned in
  let cleaned := gsub breakTag [32] cleaned in
  let cleaned := gsub anyTag [32] cleaned in
  let cleaned := entities cleaned in
  let cleaned := gsub wsRun [32] cleaned in
  let cleaned := removeSpecial cleaned in
  arabicFinish (trim cleaned).

Definition cleanPlain (text : str) : str :=
  let cleaned := removeSpecial text in
  let cleaned := gsub wsRun [32] cleaned in
  arabicFinish (trim cleaned).

Definition cleanText (text : str) : str :=
  if looksLikeHtml text then cleanHtml text else cleanPlain text.

End Clean.

(* ------------------------------------------------------------------ *)
(** ** Proofs about cleanText *)

(** After line 68 every remaining [<] either opens a kept tag
    (h1-h6, p, li, ul, ol) or has no [>] after it. *)
Fixpoint tagsOk (s : str) : bool :=
  match s with
  | [] => true
  | c :: t =>
      (negb (c =? 60) || keptTagAhead t || negb (existsb (Z.eqb 62) t))
      && tagsOk t
  end.

Definition consumes (m : str -> option str) : Prop :=
  forall s r, m s = Some r -> exists a, a <> [] /\ s = a ++ r.

Lemma lowerAscii_cases c :
  (65 <= c <= 90 /\ lowerAscii c = c + 32) \/
  (~ (65 <= c <= 90) /\ lowerAscii c = c).
Proof.
  unfold lowerAscii.
  destruct (Z.leb_spec 65 c), (Z.leb_spec c 90); simpl; lia.
Qed.

Lemma ciEq_nonletter c p : isAsciiLetter p = false -> ciEq c p = true -> c = p.
Proof.
  unfold ciEq, isAsciiLetter. intros Hp Hc. apply Z.eqb_eq in Hc.
  destruct (lowerAscii_cases c) as [[? ?]|[? ?]];
    destruct (lowerAscii_cases p) as [[? ?]|[? ?]];
    destruct (Z.leb_spec 65 p), (Z.leb_spec p 90), (Z.leb_spec 97 p),
      (Z.leb_spec p 122); simpl in Hp; try discriminate; lia.
Qed.

Lemma ciEq_letter c p : 97 <= p <= 122 -> ciEq c p = true -> c = p \/ c = p - 32.
Proof.
  unfold ciEq. intros Hp Hc. apply Z.eqb_eq in Hc.
  destruct (lowerAscii_cases c) as [[? ?]|[? ?]];
    destruct (lowerAscii_cases p) as [[? ?]|[? ?]]; lia.
Qed.

Lemma ciEq_lt c : ciEq c 60 = true -> c = 60.
Proof. apply ciEq_nonletter. reflexivity. Qed.

Lemma ciEq_ne60 a p : ciEq a p = true -> p <> 60 -> a <> 60.
Proof.
  intros H Hp Ha. subst a. unfold ciEq in H. apply Z.eqb_eq in H.
  change (lowerAscii 60) with 60 in H.
  destruct (lowerAscii_cases p) as [[? ?]|[? ?]]; lia.
Qed.

Lemma prefixCI_suffix pat s r :
  prefixCI pat s = Some r -> exists a, s = a ++ r /\ length a = length pat.
Proof.
  revert s; induction pat as [|p pt IH]; intros s H; simpl in H.
  - injection H as <-. exists []. auto.
  - destruct s as [|c t]; [discriminate|]. destruct (ciEq c p); [|discriminate].
    destruct (IH _ H) as [a [Ha Hl]]. exists (c :: a). subst t. simpl. auto.
Qed.

Lemma prefixCS_suffix pat s r :
  prefixCS pat s = Some r -> exists a, s = a ++ r /\ length a = length pat.
Proof.
  revert s; induction pat as [|p pt IH]; intros s H; simpl in H.
  - injection H as <-. exists []. auto.
  - destruct s as [|c t]; [discriminate|]. destruct (c =? p); [|discriminate].
    destruct (IH _ H) as [a [Ha Hl]]. exists (c :: a). subst t. simpl. auto.
Qed.

Lemma afterGt_suffix s r : afterGt s = Some r -> exists a, s = a ++ 62 :: r.
Proof.
  induction s as [|c t IH]; simpl; intros H; [discriminate|].
  destruct (Z.eqb_spec c 62).
  - injection H as <-. subst. exists []. reflexivity.
  - destruct (IH H) as [a Ha]. exists (c :: a). rewrite Ha. reflexivity.
Qed.

Lemma afterGt_none s : afterGt s = None -> existsb (Z.eqb 62) s = false.
Proof.
  induction s as [|c t IH]; cbn [afterGt existsb]; intros H; auto.
  destruct (Z.eqb_spec c 62); [discriminate|].
  cbn [existsb]. destruct (Z.eqb_spec 62 c); [lia|]. apply IH. exact H.
Qed.

Lemma findAfterCI_suffix pat s r : findAfterCI pat s = Some r -> exists a, s = a ++ r.
Proof.
  induction s as [|c t IH]; simpl; intros H.
  - destruct (prefixCI pat []) eqn:E; [|discriminate]. injection H as <-.
    destruct (prefixCI_suffix _ _ _ E) as [a [Ha _]]. eauto.
  - destruct (prefixCI pat (c :: t)) eqn:E.
    + injection H as <-. destruct (prefixCI_suffix _ _ _ E) as [a [Ha _]]. eauto.
    + destruct (IH H) as [a Ha]. exists (c :: a). rewrite Ha. reflexivity.
Qed.

Lemma tagBlock_consumes name : consumes (tagBlock name).
Proof.
  intros s r. unfold tagBlock.
  destruct (prefixCI (60 :: name) s) eqn:E1; [|discriminate].
  destruct (afterGt s0) eqn:E2; [|discriminate]. intros H.
  destruct (prefixCI_suffix _ _ _ E1) as [a1 [H1 L1]].
  destruct (afterGt_suffix _ _ E2) as [a2 H2].
  destruct (findAfterCI_suffix _ _ _ H) as [a3 H3].
  exists (a1 ++ a2 ++ 62 :: a3). split.
  - destruct a1; simpl in L1; discriminate.
  - subst. repeat rewrite <- app_assoc. reflexivity.
Qed.

Lemma stripTags_consumes : consumes stripTags.
Proof.
  intros s r. unfold stripTags, orElse.
  destruct (tagBlock (s2z "style") s) eqn:E1.
  { intros H. injection H as <-. exact (tagBlock_consumes _ _ _ E1). }
  destruct (tagBlock (s2z "script") s) eqn:E2.
  { intros H. injection H as <-. exact (tagBlock_consumes _ _ _ E2). }
  destruct (otherOpenTag s) eqn:E3.
  { intros H. injection H as <-. unfold otherOpenTag in E3.
    destruct s as [|c t]; [discriminate|].
    destruct (c =? 60); [|discriminate]. destruct (keptTagAhead t); [discriminate|].
    destruct (afterGt_suffix _ _ E3) as [a Ha].
    exists (c :: a ++ [62]). split; [discriminate|].
    rewrite Ha. simpl. rewrite <- app_assoc. reflexivity. }
  unfold otherCloseTag. destruct s as [|c [|d t]]; try discriminate.
  destruct ((c =? 60) && (d =? 47)); [|discriminate].
  destruct (keptTagAhead t); [discriminate|]. intros H.
  destruct (afterGt_suffix _ _ H) as [a Ha].
  exists (c :: d :: a ++ [62]). split; [discriminate|].
  rewrite Ha. simpl. rewrite <- app_assoc. reflexivity.
Qed.

Lemma wsRun_consumes : consumes wsRun.
Proof.
  intros s r. unfold wsRun. destruct s as [|c t]; [discriminate|].
  destruct (is_ws c); [|discriminate]. intros H. injection H as <-.
  destruct (dropWhile_suffix is_ws t) as [a Ha].
  exists (c :: a). split; [discriminate|]. simpl. f_equal. exact Ha.
Qed.

Lemma gsubF_chars m rep f s x :
  consumes m -> In x (gsubF f m rep s) -> In x rep \/ In x s.
Proof.
  intros Hm. revert s. induction f as [|f IH]; intros s H; simpl in H;
    [right; exact H|].
  destruct s as [|c t]; [contradiction|].
  destruct (m (c :: t)) eqn:E.
  - apply in_app_or in H. destruct H as [H|H]; [left; exact H|].
    destruct (IH _ H) as [H'|H']; [left; exact H'|right].
    destruct (Hm _ _ E) as [a [_ Ha]]. rewrite Ha.
    apply in_or_app. right. exact H'.
  - destruct H as [H|H]; [right; left; exact H|].
    destruct (IH _ H) as [H'|H']; [left; exact H'|right; right; exact H'].
Qed.

Lemma gsubF_skip m rep f c t :
  m (c :: t) = None -> gsubF (S f) m rep (c :: t) = c :: gsubF f m rep t.
Proof. intros H. simpl. rewrite H. reflexivity. Qed.

Lemma stripTags_not_lt c t : c <> 60 -> stripTags (c :: t) = None.
Proof.
  intros Hc.
  assert (E : ciEq c 60 = false).
  { destruct (ciEq c 60) eqn:E; [apply ciEq_lt in E; contradiction|reflexivity]. }
  assert (E' : (c =? 60) = false) by (apply Z.eqb_neq; exact Hc).
  unfold stripTags, tagBlock, otherOpenTag, otherCloseTag, orElse.
  change (s2z "style") with [115; 116; 121; 108; 101].
  change (s2z "script") with [115; 99; 114; 105; 112; 116].
  cbn [prefixCI]. rewrite E, E'. destruct t; reflexivity.
Qed.

Lemma keptTags_no_lt : List.Forall (fun w => List.Forall (fun p => p <> 60) w) keptTags.
Proof. repeat constructor; discriminate. Qed.

Lemma prefixCI_gsub w t r f :
  List.Forall (fun p => p <> 60) w -> prefixCI w t = Some r -> (length t <= f)%nat ->
  exists r', prefixCI w (gsubF f stripTags [] t) = Some r'.
Proof.
  revert t r f. induction w as [|p w IH]; intros t r f Hw H Hl.
  - simpl. eauto.
  - simpl in H. destruct t as [|a t]; [discriminate|].
    destruct (ciEq a p) eqn:E; [|discriminate]. inversion Hw; subst.
    destruct f as [|f]; [simpl in Hl; lia|].
    rewrite gsubF_skip by (apply stripTags_not_lt; eapply ciEq_ne60; eauto).
    simpl. rewrite E. apply (IH t r f); auto. simpl in Hl; lia.
Qed.

Lemma keptTagAhead_gsub t f :
  keptTagAhead t = true -> (length t <= f)%nat ->
  keptTagAhead (gsubF f stripTags [] t) = true.
Proof.
  unfold keptTagAhead. intros H Hl. apply existsb_exists in H.
  destruct H as [w [Hw Hm]]. apply existsb_exists. exists w. split; [exact Hw|].
  destruct (prefixCI w t) as [s|] eqn:E; [|discriminate].
  destruct (prefixCI_gsub w t s f) as [r' Hr']; auto.
  - pose proof keptTags_no_lt as K. rewrite List.Forall_forall in K. apply K. exact Hw.
  - rewrite Hr'. reflexivity.
Qed.

Lemma gsub_stripTags_tagsOk f s :
  (length s <= f)%nat -> tagsOk (gsubF f stripTags [] s) = true.
Proof.
  revert s. induction f as [|f IH]; intros s Hl.
  - destruct s; [reflexivity|simpl in Hl; lia].
  - destruct s as [|c t]; [reflexivity|].
    destruct (stripTags (c :: t)) eqn:E.
    + simpl. rewrite E. simpl. apply IH.
      destruct (stripTags_consumes _ _ E) as [a [Ha Hs]].
      rewrite Hs, length_app in Hl. destruct a; [congruence|simpl in Hl; lia].
    + rewrite gsubF_skip by exact E.
      change (tagsOk (c :: gsubF f stripTags [] t)) with
        ((negb (c =? 60) || keptTagAhead (gsubF f stripTags [] t)
          || negb (existsb (Z.eqb 62) (gsubF f stripTags [] t)))
         && tagsOk (gsubF f stripTags [] t)).
      rewrite IH by (simpl in Hl; lia). rewrite andb_true_r.
      destruct (Z.eqb_spec c 60); [subst c|reflexivity]. simpl.
      unfold stripTags, orElse in E.
      destruct (tagBlock _ _); [discriminate|].
      destruct (tagBlock _ _); [discriminate|].
      destruct (otherOpenTag (60 :: t)) eqn:E3; [discriminate|].
      unfold otherOpenTag in E3. rewrite Z.eqb_refl in E3.
      destruct (keptTagAhead t) eqn:Ek.
      * rewrite keptTagAhead_gsub; auto. simpl in Hl; lia.
      * apply afterGt_none in E3.
        destruct (existsb (Z.eqb 62) (gsubF f stripTags [] t)) eqn:Ex;
          [|rewrite orb_true_r; reflexivity].
        exfalso. apply existsb_exists in Ex. destruct Ex as [x [Hx Hx']].
        destruct (gsubF_chars _ _ _ _ _ stripTags_consumes Hx) as [[]|Ht].
        apply Z.eqb_eq in Hx'. subst x.
        assert (existsb (Z.eqb 62) t = true)
          by (apply existsb_exists; exists 62; split; [exact Ht|apply Z.eqb_refl]).
        congruence.
Qed.

Lemma gsubF_id m rep f s :
  (forall u, tagsOk u = true -> m u = None) -> tagsOk s = true ->
  gsubF f m rep s = s.
Proof.
  intros Hm. revert s. induction f as [|f IH]; intros s Hs; [reflexivity|].
  destruct s as [|c t]; [reflexivity|]. simpl. rewrite (Hm _ Hs). f_equal.
  apply IH. simpl in Hs. apply andb_true_iff in Hs. tauto.
Qed.

Lemma fold_orElse_some {A B} (g : A -> option B) l x :
  fold_right (fun w acc => orElse (g w) acc) None l = Some x ->
  exists w, In w l /\ g w = Some x.
Proof.
  induction l as [|w l IH]; simpl; [discriminate|]. unfold orElse.
  destruct (g w) eqn:E; intros H.
  - injection H as <-. exists w. auto.
  - destruct (IH H) as [w' [? ?]]. eauto.
Qed.

Lemma prefixCI_last w q r x :
  isAsciiLetter q = false -> prefixCI (w ++ [q]) r = Some x -> In q r.
Proof.
  intros Hq. revert r. induction w as [|p w IH]; intros r H; simpl in H;
    destruct r as [|c r]; try discriminate.
  - destruct (ciEq c q) eqn:E; [|discriminate]. left. apply ciEq_nonletter; auto.
  - destruct (ciEq c p); [|discriminate]. right. eapply IH; eauto.
Qed.

Lemma tagsOk_lt t :
  tagsOk (60 :: t) = true -> keptTagAhead t = true \/ existsb (Z.eqb 62) t = false.
Proof.
  intros H. change (tagsOk (60 :: t)) with
    ((negb (60 =? 60) || keptTagAhead t || negb (existsb (Z.eqb 62) t)) && tagsOk t) in H.
  destruct (keptTagAhead t); [auto|]. destruct (existsb (Z.eqb 62) t); [|auto].
  discriminate.
Qed.

Lemma closingBoundary_tagsOk u : tagsOk u = true -> closingBoundary u = None.
Proof.
  intros Hu. unfold closingBoundary.
  destruct u as [|c [|d t]]; cbn [prefixCI];
    [reflexivity|destruct (ciEq c 60); reflexivity|].
  destruct (ciEq c 60) eqn:E1; [|reflexivity].
  destruct (ciEq d 47) eqn:E2; [|reflexivity].
  apply ciEq_lt in E1. apply (ciEq_nonletter _ 47 eq_refl) in E2. subst c d.
  destruct (tagsOk_lt _ Hu) as [Hk|Hk]; [discriminate Hk|].
  match goal with |- context [fold_right ?g None ?l] =>
    destruct (fold_right g None l) eqn:E end; [|reflexivity]. exfalso.
  apply fold_orElse_some in E. destruct E as [w [_ Hp]].
  apply prefixCI_last in Hp; [|reflexivity].
  assert (existsb (Z.eqb 62) (47 :: t) = true)
    by (apply existsb_exists; exists 62; split; [right; exact Hp|apply Z.eqb_refl]).
  congruence.
Qed.

Lemma brhr_shape p u r x :
  (p = 98 \/ p = 104) -> prefixCI [60; p; 114] u = Some r -> afterGt r = Some x ->
  exists t, u = 60 :: t /\ keptTagAhead t = false /\ existsb (Z.eqb 62) t = true.
Proof.
  intros Hp H1 H2. destruct u as [|c [|b [|r0 t]]]; simpl in H1; try discriminate;
    destruct (ciEq c 60) eqn:E1; try discriminate;
    destruct (ciEq b p) eqn:E2; try discriminate;
    destruct (ciEq r0 114) eqn:E3; try discriminate.
  injection H1 as <-. apply ciEq_lt in E1. subst c.
  exists (b :: r0 :: t). split; [reflexivity|]. split.
  - apply ciEq_letter in E2; [|lia]. apply ciEq_letter in E3; [|lia].
    destruct Hp as [->| ->]; destruct E2 as [->| ->]; destruct E3 as [->| ->];
      reflexivity.
  - destruct (afterGt_suffix _ _ H2) as [a Ha]. apply existsb_exists.
    exists 62. split; [|apply Z.eqb_refl]. right. right. rewrite Ha.
    apply in_or_app. right. left. reflexivity.
Qed.

Lemma breakTag_tagsOk u : tagsOk u = true -> breakTag u = None.
Proof.
  intros Hu.
  assert (K : forall p r x, (p = 98 \/ p = 104) -> prefixCI [60; p; 114] u = Some r ->
              afterGt r = Some x -> False).
  { intros p r x Hp H1 H2. destruct (brhr_shape p u r x Hp H1 H2) as [t [-> [Hk He]]].
    destruct (tagsOk_lt _ Hu) as [H|H]; congruence. }
  unfold breakTag. change (s2z "<br") with [60; 98; 114].
  change (s2z "<hr") with [60; 104; 114].
  destruct (prefixCI [60; 98; 114] u) as [r1|] eqn:E1.
  - destruct (afterGt r1) as [x1|] eqn:E2;
      [exfalso; exact (K 98 r1 x1 (or_introl eq_refl) E1 E2)|].
    destruct (prefixCI [60; 104; 114] u) as [r2|] eqn:E3; [|reflexivity].
    destruct (afterGt r2) as [x2|] eqn:E4;
      [exfalso; exact (K 104 r2 x2 (or_intror eq_refl) E3 E4)|reflexivity].
  - destruct (prefixCI [60; 104; 114] u) as [r2|] eqn:E3; [|reflexivity].
    destruct (afterGt r2) as [x2|] eqn:E4;
      [exfalso; exact (K 104 r2 x2 (or_intror eq_refl) E3 E4)|reflexivity].
Qed.

Lemma gsubF_nil m rep f : gsubF f m rep [] = [].
Proof. destruct f; reflexivity. Qed.

Lemma wsRun_nonws c t : is_ws c = false -> wsRun (c :: t) = None.
Proof. intros H. cbn [wsRun]. rewrite H. reflexivity. Qed.

Lemma gsubF_ws_step rep f c t :
  is_ws c = true ->
  gsubF (S f) wsRun rep (c :: t) = rep ++ gsubF f wsRun rep (dropWhile is_ws t).
Proof. intros H. cbn [gsubF wsRun]. rewrite H. reflexivity. Qed.

Lemma ws_not_surrogate c : is_ws c = true -> isHigh c = false /\ isLow c = false.
Proof.
  unfold is_ws, isHigh, isLow. intros H.
  repeat rewrite orb_true_iff in H. repeat rewrite andb_true_iff in H.
  repeat rewrite Z.leb_le in H. repeat rewrite Z.eqb_eq in H.
  destruct (Z.leb_spec 55296 c), (Z.leb_spec c 56319), (Z.leb_spec 56320 c),
    (Z.leb_spec c 57343); simpl; split; auto; lia.
Qed.

Lemma dropWhile_split p s :
  exists a, s = a ++ dropWhile p s /\ List.Forall (fun c => p c = true) a.
Proof.
  induction s as [|c t IH]; simpl; [exists []; auto|].
  destruct (p c) eqn:E; [|exists []; auto].
  destruct IH as [a [Ha Hf]]. exists (c :: a). split; [simpl; f_equal; exact Ha|].
  constructor; auto.
Qed.

Lemma dropWhile_head p s :
  forall c t, dropWhile p s = c :: t -> p c = false.
Proof.
  induction s as [|d u IH]; simpl; intros c t H; [discriminate|].
  destruct (p d) eqn:E; [eapply IH; eauto|]. injection H as <- <-. exact E.
Qed.

Lemma dropWhile_id p s : (forall c t, s = c :: t -> p c = false) -> dropWhile p s = s.
Proof.
  destruct s as [|c t]; intros H; [reflexivity|]. simpl.
  rewrite (H c t eq_refl). reflexivity.
Qed.

Lemma dropWhile_idem p s : dropWhile p (dropWhile p s) = dropWhile p s.
Proof. apply dropWhile_id. apply dropWhile_head. Qed.

(** [trim s] is a prefix of [s] without leading white space, followed
    only by white space, and starts with a non-white-space character. *)
Lemma trim_shape s :
  exists b, dropWhile is_ws s = trim s ++ b /\ List.Forall (fun c => is_ws c = true) b /\
  (forall c t, trim s = c :: t -> is_ws c = false).
Proof.
  set (x := dropWhile is_ws s).
  destruct (dropWhile_split is_ws (rev x)) as [w [Hw Hf]].
  assert (Hx : x = trim s ++ rev w).
  { unfold trim. fold x. rewrite <- rev_app_distr, <- Hw, rev_involutive. reflexivity. }
  exists (rev w). split; [exact Hx|]. split.
  - apply Forall_rev. exact Hf.
  - intros c t Ht. rewrite Ht in Hx. apply (dropWhile_head is_ws s c (t ++ rev w)).
    fold x. rewrite Hx. reflexivity.
Qed.

Lemma trim_idem s : trim (trim s) = trim s.
Proof.
  destruct (trim_shape s) as [b [_ [_ Hh]]].
  assert (E : forall m, trim m = rev (dropWhile is_ws (rev (dropWhile is_ws m))))
    by reflexivity.
  rewrite (E (trim s)). rewrite (dropWhile_id is_ws (trim s) Hh).
  unfold trim. rewrite rev_involutive, dropWhile_idem. reflexivity.
Qed.

(** Every white-space code unit is a single space between two
    non-white-space ones (or at an end). *)
Fixpoint singleSpaced (s : str) : bool :=
  match s with
  | [] => true
  | c :: t =>
      (negb (is_ws c) ||
       ((c =? 32) && match t with d :: _ => negb (is_ws d) | [] => true end))
      && singleSpaced t
  end.

Lemma singleSpaced_app_l a x : singleSpaced (a ++ x) = true -> singleSpaced x = true.
Proof.
  induction a as [|c a IH]; simpl; auto. intros H.
  apply andb_true_iff in H. apply IH. tauto.
Qed.

Lemma singleSpaced_app_r x b : singleSpaced (x ++ b) = true -> singleSpaced x = true.
Proof.
  induction x as [|c x IH]; intros H; [reflexivity|].
  cbn [app singleSpaced] in H |- *. apply andb_true_iff in H. destruct H as [H1 H2].
  rewrite (IH H2), andb_true_r.
  destruct x as [|d x].
  - destruct (is_ws c), (c =? 32); cbn in H1 |- *; auto.
  - exact H1.
Qed.

Lemma singleSpaced_trim s : singleSpaced s = true -> singleSpaced (trim s) = true.
Proof.
  intros H. destruct (trim_infix s) as [a [b Hs]]. rewrite Hs in H.
  apply singleSpaced_app_l in H. apply singleSpaced_app_r in H. exact H.
Qed.

Lemma gsub_ws_singleSpaced f s :
  (length s <= f)%nat -> singleSpaced (gsubF f wsRun [32] s) = true.
Proof.
  revert s. induction f as [|f IH]; intros s Hl.
  - destruct s; [reflexivity|simpl in Hl; lia].
  - destruct s as [|c t]; [reflexivity|].
    destruct (is_ws c) eqn:Ew.
    + rewrite gsubF_ws_step by exact Ew.
      assert (Hd : (length (dropWhile is_ws t) <= f)%nat).
      { destruct (dropWhile_split is_ws t) as [a [Ha _]].
        pose proof (f_equal (@length Z) Ha) as HL. rewrite length_app in HL.
      simpl in Hl. lia. }
      pose proof (IH _ Hd) as IHd.
      destruct (dropWhile is_ws t) as [|e d] eqn:Ed.
      * rewrite gsubF_nil. reflexivity.
      * pose proof (dropWhile_head is_ws t e d Ed) as He.
        destruct f as [|f]; [simpl in Hd; lia|].
        rewrite gsubF_skip in IHd |- * by (apply wsRun_nonws; exact He).
        cbn [app singleSpaced] in IHd |- *. rewrite IHd, He.
        reflexivity.
    + rewrite gsubF_skip by (apply wsRun_nonws; exact Ew).
      cbn [singleSpaced]. rewrite Ew, IH by (simpl in Hl; lia). reflexivity.
Qed.

Lemma gsub_ws_id f s : singleSpaced s = true -> gsubF f wsRun [32] s = s.
Proof.
  revert s. induction f as [|f IH]; intros s Hs; [reflexivity|].
  destruct s as [|c t]; [reflexivity|].
  cbn [singleSpaced] in Hs. apply andb_true_iff in Hs. destruct Hs as [H1 H2].
  destruct (is_ws c) eqn:Ew.
  - rewrite gsubF_ws_step by exact Ew.
    cbn [negb orb] in H1. apply andb_true_iff in H1. destruct H1 as [H1 H3].
    apply Z.eqb_eq in H1. subst c.
    rewrite dropWhile_id.
    + cbn [app]. f_equal. apply IH. exact H2.
    + intros d u ->. destruct (is_ws d); [discriminate|reflexivity].
  - rewrite gsubF_skip by (apply wsRun_nonws; exact Ew). f_equal. apply IH. exact H2.
Qed.

Lemma html_needs_lt s : ~ In 60 s -> looksLikeHtml s = false.
Proof.
  induction s as [|c t IH]; intros H; [reflexivity|]. cbn [looksLikeHtml].
  rewrite IH by (intros H'; apply H; right; exact H').
  destruct (Z.eqb_spec c 60); [subst; exfalso; apply H; left; reflexivity|].
  reflexivity.
Qed.

Lemma removeSpecial_chars lnp x s :
  In x (removeSpecial lnp s) -> keepCp lnp x = true \/ isHigh x = true \/ isLow x = true.
Proof.
  induction s as [s IH] using (induction_ltof1 _ (@length Z)). intros H.
  unfold ltof in IH.
  destruct s as [|c t]; [contradiction|]. cbn [removeSpecial] in H.
  destruct (isHigh c) eqn:Eh.
  - destruct t as [|d t'].
    + destruct (keepCp lnp c) eqn:Ek; [destruct H as [<-|[]]; auto|contradiction].
    + destruct (isLow d) eqn:El.
      * destruct (keepCp lnp (codePoint c d)).
        -- destruct H as [<-|[<-|H]]; auto. apply (IH t'); [simpl; lia|exact H].
        -- apply (IH t'); [simpl; lia|exact H].
      * destruct (keepCp lnp c) eqn:Ek.
        -- destruct H as [<-|H]; auto. apply (IH (d :: t')); [simpl; lia|exact H].
        -- apply (IH (d :: t')); [simpl; lia|exact H].
  - destruct (keepCp lnp c) eqn:Ek.
    + destruct H as [<-|H]; auto. apply (IH t); [simpl; lia|exact H].
    + apply (IH t); [simpl; lia|exact H].
Qed.

Lemma arabicFinish_chars detectAr sanitize s x :
  (forall u r, sanitize u = inr r -> forall y, In y r -> In y u) ->
  In x (arabicFinish detectAr sanitize s) -> In x s.
Proof.
  intros Hsan. unfold arabicFinish, sanitizeArabicText.
  destruct (isArabic detectAr s); [|auto].
  destruct (sanitize s) eqn:E; [auto|]. intros H. exact (Hsan _ _ E _ H).
Qed.

Lemma arabicFinish_id detectAr s : arabicFinish detectAr (@inr exn str) s = s.
Proof.
  unfold arabicFinish, sanitizeArabicText. destruct (isArabic detectAr s); reflexivity.
Qed.

Lemma cleanText_chars lnp detectAr sanitize text x :
  (forall u r, sanitize u = inr r -> forall y, In y r -> In y u) ->
  In x (cleanText lnp detectAr sanitize text) ->
  x = 32 \/ keepCp lnp x = true \/ isHigh x = true \/ isLow x = true.
Proof.
  intros Hsan. unfold cleanText, cleanHtml, cleanPlain.
  destruct (looksLikeHtml text); intros H;
    apply arabicFinish_chars in H; [|exact Hsan| |exact Hsan];
    apply trim_chars in H.
  - right. eapply removeSpecial_chars. exact H.
  - destruct (gsubF_chars _ _ _ _ _ wsRun_consumes H) as [[<-|[]]|H'];
      [left; reflexivity|].
    right. eapply removeSpecial_chars. exact H'.
Qed.

(** Well-formed output of the [u]-flag filter: every code unit is kept,
    and surrogates only occur as kept pairs. *)
Fixpoint wfCp (lnp : Z -> bool) (s : str) : bool :=
  match s with
  | [] => true
  | c :: t =>
      if isHigh c then
        match t with
        | d :: t' => isLow d && keepCp lnp (codePoint c d) && wfCp lnp t'
        | [] => false
        end
      else negb (isLow c) && keepCp lnp c && wfCp lnp t
  end.

Section WellFormed.
Variable lnp : Z -> bool.
Hypothesis lnp_surrogate : forall c, isHigh c || isLow c = true -> lnp c = false.

Lemma keepCp_surrogate c : isHigh c || isLow c = true -> keepCp lnp c = false.
Proof.
  intros H. unfold keepCp. rewrite (lnp_surrogate c H).
  destruct (is_ws c) eqn:E; [|reflexivity].
  destruct (ws_not_surrogate c E) as [H1 H2]. rewrite H1, H2 in H. discriminate.
Qed.

Lemma removeSpecial_wf s : wfCp lnp (removeSpecial lnp s) = true.
Proof.
  induction s as [s IH] using (induction_ltof1 _ (@length Z)). unfold ltof in IH.
  destruct s as [|c t]; [reflexivity|]. cbn [removeSpecial].
  destruct (isHigh c) eqn:Eh.
  - destruct t as [|d t'].
    + rewrite keepCp_surrogate by (rewrite Eh; reflexivity). reflexivity.
    + destruct (isLow d) eqn:El.
      * destruct (keepCp lnp (codePoint c d)) eqn:Ek.
        -- cbn [wfCp]. rewrite Eh, El, Ek. cbn [andb]. apply IH. simpl. lia.
        -- apply IH. simpl. lia.
      * rewrite keepCp_surrogate by (rewrite Eh; reflexivity). apply IH. simpl. lia.
  - destruct (keepCp lnp c) eqn:Ek; [|apply IH; simpl; lia].
    cbn [wfCp]. rewrite Eh.
    destruct (isLow c) eqn:El.
    + rewrite keepCp_surrogate in Ek by (rewrite El, orb_true_r; reflexivity).
      discriminate.
    + rewrite Ek. cbn [negb andb]. apply IH. simpl. lia.
Qed.

Lemma removeSpecial_id s : wfCp lnp s = true -> removeSpecial lnp s = s.
Proof.
  induction s as [s IH] using (induction_ltof1 _ (@length Z)). unfold ltof in IH.
  destruct s as [|c t]; intros H; [reflexivity|]. cbn [wfCp] in H. cbn [removeSpecial].
  destruct (isHigh c) eqn:Eh.
  - destruct t as [|d t']; [discriminate|].
    apply andb_true_iff in H. destruct H as [H H3]. apply andb_true_iff in H.
    destruct H as [H1 H2]. rewrite H1, H2. rewrite (IH t'); [reflexivity|simpl; lia|exact H3].
  - apply andb_true_iff in H. destruct H as [H H3]. apply andb_true_iff in H.
    destruct H as [_ H2]. rewrite H2. rewrite (IH t); [reflexivity|simpl; lia|exact H3].
Qed.

Lemma wfCp_ws_cons c t : is_ws c = true -> wfCp lnp (c :: t) = wfCp lnp t.
Proof.
  intros Hc. destruct (ws_not_surrogate c Hc) as [H1 H2].
  cbn [wfCp]. rewrite H1, H2. unfold keepCp. rewrite Hc, orb_true_r. reflexivity.
Qed.

Lemma wfCp_dropWhile s : wfCp lnp s = true -> wfCp lnp (dropWhile is_ws s) = true.
Proof.
  induction s as [|c t IH]; intros H; [reflexivity|]. cbn [dropWhile].
  destruct (is_ws c) eqn:E; [|exact H]. apply IH. rewrite <- (wfCp_ws_cons c t E). exact H.
Qed.

Lemma gsub_ws_wf f : forall s,
  (length s <= f)%nat -> wfCp lnp s = true -> wfCp lnp (gsubF f wsRun [32] s) = true.
Proof.
  induction f as [f IH] using lt_wf_ind. intros s Hl H.
  destruct s as [|c t]; [rewrite gsubF_nil; reflexivity|].
  destruct f as [|f]; [simpl in Hl; lia|].
  destruct (is_ws c) eqn:Ew.
  - rewrite gsubF_ws_step by exact Ew. cbn [app].
    rewrite (wfCp_ws_cons 32 _ eq_refl). apply IH; [lia| |].
    + destruct (dropWhile_split is_ws t) as [a [Ha _]].
      pose proof (f_equal (@length Z) Ha) as HL. rewrite length_app in HL.
      simpl in Hl. lia.
    + apply wfCp_dropWhile. rewrite <- (wfCp_ws_cons c t Ew). exact H.
  - rewrite gsubF_skip by (apply wsRun_nonws; exact Ew).
    cbn [wfCp] in H |- *. destruct (isHigh c) eqn:Eh.
    + destruct t as [|d t']; [discriminate|].
      apply andb_true_iff in H. destruct H as [H H3]. apply andb_true_iff in H.
      destruct H as [H1 H2].
      assert (Ed : is_ws d = false).
      { destruct (is_ws d) eqn:E; [|reflexivity].
        destruct (ws_not_surrogate d E) as [_ E']. congruence. }
      destruct f as [|f]; [simpl in Hl; lia|].
      rewrite gsubF_skip by (apply wsRun_nonws; exact Ed).
      rewrite H1, H2. cbn [andb]. apply IH; [lia|simpl in Hl; lia|exact H3].
    + apply andb_true_iff in H. destruct H as [H H3]. rewrite H. cbn [andb].
      apply IH; [lia|simpl in Hl; lia|exact H3].
Qed.

Lemma wfCp_app_ws a b :
  wfCp lnp (a ++ b) = true -> List.Forall (fun c => is_ws c = true) b -> wfCp lnp a = true.
Proof.
  induction a as [a IH] using (induction_ltof1 _ (@length Z)). unfold ltof in IH.
  intros H Hb. destruct a as [|c a]; [reflexivity|].
  cbn [app wfCp] in H |- *. destruct (isHigh c) eqn:Eh.
  - destruct a as [|d a'].
    + exfalso. destruct b as [|e b]; [discriminate|].
      inversion Hb as [|? ? He _]; subst.
      destruct (ws_not_surrogate e He) as [_ Hl]. cbn [app] in H. rewrite Hl in H.
      discriminate.
    + cbn [app] in H. apply andb_true_iff in H. destruct H as [H H3].
      rewrite H. cbn [andb]. apply (IH a'); [simpl; lia|exact H3|exact Hb].
  - apply andb_true_iff in H. destruct H as [H H3]. rewrite H. cbn [andb].
    apply (IH a); [simpl; lia|exact H3|exact Hb].
Qed.

Lemma wfCp_trim s : wfCp lnp s = true -> wfCp lnp (trim s) = true.
Proof.
  intros H. destruct (trim_shape s) as [b [Hx [Hb _]]].
  apply (wfCp_app_ws _ b); [|exact Hb]. rewrite <- Hx. apply wfCp_dropWhile. exact H.
Qed.

End WellFormed.

(** A sample of the Unicode classes L, N and P (ASCII letters, digits
    and [. ! ?]), used to run the statements below on concrete text. *)
Definition sampleLnp (c : Z) : bool :=
  isAsciiLetter c || ((48 <=? c) && (c <=? 57)) || is_latin_punct c.

Lemma sampleLnp_surrogate c : isHigh c || isLow c = true -> sampleLnp c = false.
Proof.
  unfold sampleLnp, isHigh, isLow, isAsciiLetter, is_latin_punct. intros H.
  apply orb_true_iff in H. repeat rewrite andb_true_iff, Z.leb_le in H.
  destruct (Z.leb_spec 65 c), (Z.leb_spec c 90), (Z.leb_spec 97 c), (Z.leb_spec c 122),
    (Z.leb_spec 48 c), (Z.leb_spec c 57), (Z.eqb_spec c 46), (Z.eqb_spec c 33),
    (Z.eqb_spec c 63); simpl; try reflexivity; lia.
Qed.

(** X1. In the HTML branch of cleanText, the replacements of line 71
    (closing h1-h6, p and li tags become ". ") and of line 72 (br and
    hr tags become " ") never change the text: the first replacement
    (line 68) has already removed every closing tag and every br or hr
    tag. *)
Theorem cleanHtml_boundary_tags_inert (text : str) :
  gsub closingBoundary [46; 32] (gsub stripTags [] text) = gsub stripTags [] text /\
  gsub breakTag [32] (gsub stripTags [] text) = gsub stripTags [] text.
Proof.
  assert (H : tagsOk (gsub stripTags [] text) = true)
    by (apply gsub_stripTags_tagsOk; lia).
  split; apply gsubF_id; auto.
  - exact closingBoundary_tagsOk.
  - exact breakTag_tagsOk.
Qed.

(** X2. Whatever the input, the text returned by cleanText contains no
    [<] and no [>]: both are removed by the special-character filter
    (they are math symbols, outside L, N, P and white space), and the
    sanitizer only removes characters. *)
Theorem cleanText_no_angle_brackets lnp detectAr sanitize text
  (H60 : lnp 60 = false) (H62 : lnp 62 = false)
  (Hsan : forall u r, sanitize u = inr r -> forall y, In y r -> In y u) :
  ~ In 60 (cleanText lnp detectAr sanitize text) /\
  ~ In 62 (cleanText lnp detectAr sanitize text).
Proof.
  split; intros H; apply cleanText_chars in H; try exact Hsan;
    unfold keepCp in H; first [rewrite H60 in H|rewrite H62 in H];
    destruct H as [H|[H|[H|H]]]; compute in H; discriminate H.
Qed.

Lemma cleanText_no_angle_brackets_witness :
  sampleLnp 60 = false /\ sampleLnp 62 = false /\
  ~ In 60 (cleanText sampleLnp (fun _ => false) (@inr exn str)
             (s2z "<p>3 < 4 & 5 > 2</p>")).
Proof.
  split; [reflexivity|]. split; [reflexivity|].
  apply (cleanText_no_angle_brackets sampleLnp (fun _ => false) (@inr exn str)
           (s2z "<p>3 < 4 & 5 > 2</p>")); [reflexivity|reflexivity|].
  intros u r E y Hy. injection E as <-. exact Hy.
Defined.

(** X3. For text that does not look like HTML, and with the sanitizer
    that is installed when arajs is missing (the identity), cleanText
    returns text without leading or trailing white space in which every
    white-space code unit is a single space between two other
    characters. *)
Theorem cleanText_plain_spacing lnp detectAr text
  (Hplain : looksLikeHtml text = false) :
  let o := cleanText lnp detectAr (@inr exn str) text in
  trim o = o /\ singleSpaced o = true.
Proof.
  intros o. unfold o, cleanText. rewrite Hplain. unfold cleanPlain.
  rewrite arabicFinish_id. split; [apply trim_idem|].
  apply singleSpaced_trim. apply gsub_ws_singleSpaced. lia.
Qed.

Lemma cleanText_plain_spacing_witness :
  looksLikeHtml (s2z "  Hello,   world!  ") = false /\
  cleanText sampleLnp (fun _ => false) (@inr exn str) (s2z "  Hello,   world!  ")
  = s2z "Hello world!" /\
  singleSpaced (s2z "Hello world!") = true.
Proof.
  split; [reflexivity|]. split; [vm_compute; reflexivity|].
  pose proof (cleanText_plain_spacing sampleLnp (fun _ => false)
                (s2z "  Hello,   world!  ") eq_refl) as [_ H].
  vm_compute in H. vm_compute. exact H.
Defined.

(** X4. With the identity sanitizer, cleaning text that does not look
    like HTML a second time changes nothing: cleanText is idempotent on
    plain text (given that [<] and the surrogate code points are outside
    the classes L, N and P, as in Unicode). *)
Theorem cleanText_plain_idempotent lnp detectAr text
  (Hplain : looksLikeHtml text = false) (H60 : lnp 60 = false)
  (Hsur : forall c, isHigh c || isLow c = true -> lnp c = false) :
  cleanText lnp detectAr (@inr exn str) (cleanText lnp detectAr (@inr exn str) text)
  = cleanText lnp detectAr (@inr exn str) text.
Proof.
  assert (Hid : forall u r, @inr exn str u = inr r -> forall y, In y r -> In y u)
    by (intros u r E y Hy; injection E as <-; exact Hy).
  assert (Hh : looksLikeHtml (cleanText lnp detectAr (@inr exn str) text) = false).
  { apply html_needs_lt. intros H. apply cleanText_chars in H; [|exact Hid].
    unfold keepCp in H. rewrite H60 in H.
    destruct H as [H|[H|[H|H]]]; compute in H; discriminate H. }
  assert (Ho : cleanText lnp detectAr (@inr exn str) text =
               trim (gsub wsRun [32] (removeSpecial lnp text))).
  { unfold cleanText. rewrite Hplain. unfold cleanPlain. apply arabicFinish_id. }
  rewrite Ho in Hh |- *. set (o := trim (gsub wsRun [32] (removeSpecial lnp text))) in *.
  assert (Hw : wfCp lnp o = true).
  { unfold o. apply wfCp_trim. unfold gsub.
    apply gsub_ws_wf; [lia|]. apply (removeSpecial_wf lnp Hsur). }
  assert (Hs : singleSpaced o = true).
  { unfold o. apply singleSpaced_trim. apply gsub_ws_singleSpaced. lia. }
  assert (Ht : trim o = o) by (unfold o; apply trim_idem).
  unfold cleanText. rewrite Hh. unfold cleanPlain. rewrite arabicFinish_id.
  rewrite (removeSpecial_id lnp o Hw). unfold gsub. rewrite gsub_ws_id by exact Hs.
  exact Ht.
Qed.

Lemma cleanText_plain_idempotent_witness :
  cleanText sampleLnp (fun _ => false) (@inr exn str)
    (cleanText sampleLnp (fun _ => false) (@inr exn str) (s2z " Hi  #there. ")) =
  cleanText sampleLnp (fun _ => false) (@inr exn str) (s2z " Hi  #there. ").
Proof.
  apply cleanText_plain_idempotent; [reflexivity|reflexivity|].
  exact sampleLnp_surrogate.
Defined.

(* ================================================================== *)
(** * Topic extraction (src/utils/topicExtraction.ts, appended to
      src/analyzers/sentimentAnalyzer.ts) *)

Definition commonEnglishTopics : list str :=
  [
   s2z "Technology";
   s2z "Science";
   s2z "Health";
   s2z "Politics";
   s2z "Business";
   s2z "Economy";
   s2z "Entertainment";
   s2z "Sports";
   s2z "Education";
   s2z "Environment";
   s2z "Art";
   s2z "Music";
   s2z "Food";
   s2z "Travel";
   s2z "Fashion";
   s2z "Lifestyle";
   s2z "Religion";
   s2z "History";
   s2z "JavaScript";
   s2z "Programming";
   s2z "Web";
   s2z "Development";
   s2z "Software";
   s2z "Data";
   s2z "AI";
   s2z "Machine Learning";
   s2z "Blockchain";
   s2z "Cryptocurrency";
   s2z "Finance"].

Definition commonArabicTopics : list str :=
  [
   [1578; 1603; 1606; 1608; 1604; 1608; 1580; 1610; 1575] (* تكنولوجيا *);
   [1593; 1604; 1608; 1605] (* علوم *);
   [1589; 1581; 1577] (* صحة *);
   [1587; 1610; 1575; 1587; 1577] (* سياسة *);
   [1571; 1593; 1605; 1575; 1604] (* أعمال *);
   [1575; 1602; 1578; 1589; 1575; 1583] (* اقتصاد *);
   [1578; 1585; 1601; 1610; 1607] (* ترفيه *);
   [1585; 1610; 1575; 1590; 1577] (* رياضة *);
   [1578; 1593; 1604; 1610; 1605] (* تعليم *);
   [1576; 1610; 1574; 1577] (* بيئة *);
   [1601; 1606] (* فن *);
   [1605; 1608; 1587; 1610; 1602; 1609] (* موسيقى *);
   [1591; 1593; 1575; 1605] (* طعام *);
   [1587; 1601; 1585] (* سفر *);
   [1571; 1586; 1610; 1575; 1569] (* أزياء *);
   [1606; 1605; 1591; 32; 1575; 1604; 1581; 1610; 1575; 1577] (* نمط الحياة *);
   [1583; 1610; 1606] (* دين *);
   [1578; 1575; 1585; 1610; 1582] (* تاريخ *);
   [1580; 1575; 1601; 1575; 1587; 1603; 1585; 1610; 1576; 1578] (* جافاسكريبت *);
   [1576; 1585; 1605; 1580; 1577] (* برمجة *);
   [1608; 1610; 1576] (* ويب *);
   [1578; 1591; 1608; 1610; 1585] (* تطوير *);
   [1576; 1585; 1605; 1580; 1610; 1575; 1578] (* برمجيات *);
   [1576; 1610; 1575; 1606; 1575; 1578] (* بيانات *);
   [1584; 1603; 1575; 1569; 32; 1575; 1589; 1591; 1606; 1575; 1593; 1610] (* ذكاء اصطناعي *);
   [1578; 1593; 1604; 1605; 32; 1570; 1604; 1610] (* تعلم آلي *);
   [1576; 1604; 1608; 1603; 1578; 1588; 1610; 1606] (* بلوكتشين *);
   [1593; 1605; 1604; 1575; 1578; 32; 1585; 1602; 1605; 1610; 1577] (* عملات رقمية *);
   [1605; 1575; 1604; 1610; 1577] (* مالية *)].

(** [limit || 5]: an absent limit and a limit of 0 both give 5. *)
Definition topicLimitOf (limit : option Z) : Z :=
  match limit with None => 5 | Some n => if n =? 0 then 5 else n end.

Section Topics.
Variable detectAr : str -> bool.
Variable lowerTbl : Z -> list Z.

(** extractTopics (topicExtraction.ts) *)
Definition extractTopics (text : str) (limit : option Z) : list str :=
  if isBlank text then []
  else
    let topicLimit := topicLimitOf limit in
    let relevantTopics :=
      if isArabic detectAr text then commonArabicTopics else commonEnglishTopics in
    let lowerText := toLowerCase lowerTbl text in
    let foundTopics :=
      List.filter (fun topic => includes lowerText (toLowerCase lowerTbl topic))
        relevantTopics in
    slice0 foundTopics topicLimit.

(** [relatedMap], in the order of [Object.keys]. *)
Definition relatedMap : list (str * list str) :=
  [(s2z "Technology",
      [s2z "Programming"; s2z "Web"; s2z "Software"; s2z "Data"; s2z "AI"]);
   (s2z "Science",
      [s2z "Health"; s2z "Environment"; s2z "Technology"; s2z "Data"]);
   (s2z "Programming",
      [s2z "JavaScript"; s2z "Web"; s2z "Development"; s2z "Software"]);
   (s2z "Business", [s2z "Economy"; s2z "Finance"; s2z "Cryptocurrency"])].

Definition sameLower (a b : str) : bool :=
  str_eqb (toLowerCase lowerTbl a) (toLowerCase lowerTbl b).

(** [Object.keys(relatedMap).find(key => key.toLowerCase() ===
    topic.toLowerCase())], then [relatedMap[topicKey]]. *)
Definition relatedOf (topic : str) : list str :=
  match List.find (fun kv => sameLower (fst kv) topic) relatedMap with
  | Some kv => snd kv
  | None => []
  end.

(** [[...new Set(xs)]]: first occurrences, in insertion order. *)
Definition setAdd (acc : list str) (x : str) : list str :=
  if existsb (str_eqb x) acc then acc else acc ++ [x].

Definition uniq (xs : list str) : list str := fold_left setAdd xs [].

(** suggestRelatedTopics (topicExtraction.ts) *)
Definition suggestRelatedTopics (topics : list str) : list str :=
  match topics with
  | [] => []
  | _ =>
      let related := flat_map relatedOf topics in
      let uniqueRelated :=
        List.filter (fun topic => negb (existsb (fun t => sameLower t topic) topics))
          related in
      firstn 3 (uniq uniqueRelated)
  end.

End Topics.

(* ------------------------------------------------------------------ *)
(** ** Proofs about topic extraction *)

Lemma filter_sublist {A} (p : A -> bool) (l : list A) : List.filter p l `sublist_of` l.
Proof.
  induction l as [|a l IH]; simpl; [constructor|].
  destruct (p a); constructor; exact IH.
Qed.

Lemma slice0_sublist {A} (l : list A) k : slice0 l k `sublist_of` l.
Proof. unfold slice0. destruct (0 <=? k); apply sublist_take. Qed.

Lemma topicLists_NoDup : NoDup commonEnglishTopics /\ NoDup commonArabicTopics.
Proof. split; apply (bool_decide_unpack _); vm_compute; reflexivity. Qed.

Lemma slice_filter_props (f : str -> bool) (rel : list str) k :
  NoDup rel ->
  let r := slice0 (List.filter f rel) k in
  r `sublist_of` rel /\ NoDup r /\ (forall t, In t r -> f t = true) /\
  (k < 0 \/ (length r <= Z.to_nat k)%nat).
Proof.
  intros Hnd r.
  assert (Hs : r `sublist_of` List.filter f rel) by apply slice0_sublist.
  split; [etrans; [exact Hs|apply filter_sublist]|].
  split; [eapply sublist_NoDup; [exact Hnd|etrans; [exact Hs|apply filter_sublist]]|].
  split.
  - intros t Ht. apply list_elem_of_In in Ht. eapply elem_of_sublist in Ht; [|exact Hs].
    apply list_elem_of_In in Ht. apply filter_In in Ht. tauto.
  - destruct (Z.ltb_spec k 0); [left; lia|right; apply slice0_length_le; lia].
Qed.

Lemma uniq_fold_props (l acc : list str) :
  NoDup acc ->
  NoDup (fold_left setAdd l acc) /\
  (forall x, In x (fold_left setAdd l acc) -> In x acc \/ In x l).
Proof.
  revert acc. induction l as [|y l IH]; intros acc Hacc; simpl.
  - split; [exact Hacc|]. auto.
  - assert (Hy : NoDup (setAdd acc y) /\
                 (forall x, In x (setAdd acc y) -> In x acc \/ x = y)).
    { unfold setAdd. destruct (existsb (str_eqb y) acc) eqn:E; [split; auto|].
      split.
      - apply NoDup_app. split; [exact Hacc|]. split; [|apply NoDup_singleton].
        intros x Hx Hx'. apply list_elem_of_singleton in Hx'. subst x.
        apply list_elem_of_In in Hx.
        assert (existsb (str_eqb y) acc = true).
        { apply existsb_exists. exists y. split; [exact Hx|].
          unfold str_eqb. apply bool_decide_eq_true. reflexivity. }
        congruence.
      - intros x Hx. apply in_app_or in Hx. destruct Hx as [Hx|[<-|[]]]; auto. }
    destruct Hy as [Hy1 Hy2]. destruct (IH _ Hy1) as [H1 H2]. split; [exact H1|].
    intros x Hx. destruct (H2 x Hx) as [H|H]; [|auto].
    destruct (Hy2 x H) as [H'|H']; [auto|subst; right; left; reflexivity].
Qed.

Lemma suggest_core lowerTbl (T : list str) :
  let r := firstn 3 (uniq (List.filter
             (fun topic => negb (existsb (fun t => sameLower lowerTbl t topic) T))
             (flat_map (relatedOf lowerTbl) T))) in
  (length r <= 3)%nat /\ NoDup r /\
  (forall x, In x r -> ~ (exists t, In t T /\ sameLower lowerTbl t x = true)) /\
  (forall x, In x r -> exists t k v,
     In t T /\ In (k, v) relatedMap /\ sameLower lowerTbl k t = true /\ In x v).
Proof.
  intros r.
  set (U := List.filter _ _) in r.
  destruct (uniq_fold_props U [] ltac:(constructor)) as [Hnd Hin].
  assert (Hs : r `sublist_of` uniq U) by apply sublist_take.
  assert (HU : forall x, In x r -> In x U).
  { intros x Hx. apply list_elem_of_In in Hx. eapply elem_of_sublist in Hx; [|exact Hs].
    apply list_elem_of_In in Hx. destruct (Hin x Hx) as [[]|H]. exact H. }
  split; [unfold r; rewrite length_firstn; lia|].
  split; [eapply sublist_NoDup; [exact Hnd|exact Hs]|].
  split.
  - intros x Hx [t [Ht Hl]]. apply HU in Hx. unfold U in Hx.
    apply filter_In in Hx. destruct Hx as [_ Hg].
    assert (existsb (fun t => sameLower lowerTbl t x) T = true)
      by (apply existsb_exists; exists t; auto).
    rewrite H in Hg. discriminate.
  - intros x Hx. apply HU in Hx. unfold U in Hx. apply filter_In in Hx.
    destruct Hx as [Hx _]. apply in_flat_map in Hx. destruct Hx as [t [Ht Hx]].
    unfold relatedOf in Hx.
    destruct (List.find _ relatedMap) as [[k v]|] eqn:E; [|contradiction].
    apply find_some in E. destruct E as [Ekv Ek].
    exists t, k, v. auto.
Qed.

(** X5. extractTopics (topicExtraction.ts) returns, in list order, topics
    of the English list or of the Arabic list only, without duplicates,
    each of which occurs (lowercased) in the lowercased text; the number
    of topics is at most the limit ([limit || 5], so 5 when the limit is
    absent or 0) unless the limit is negative. *)
Theorem extractTopics_found detectAr lowerTbl text limit :
  let r := extractTopics detectAr lowerTbl text limit in
  (r `sublist_of` commonEnglishTopics \/ r `sublist_of` commonArabicTopics) /\
  NoDup r /\
  (forall t, In t r ->
     includes (toLowerCase lowerTbl text) (toLowerCase lowerTbl t) = true) /\
  (topicLimitOf limit < 0 \/ (length r <= Z.to_nat (topicLimitOf limit))%nat).
Proof.
  intros r. unfold r, extractTopics. destruct (isBlank text).
  - split; [left; apply sublist_nil_l|]. split; [constructor|].
    split; [intros t []|]. right. simpl. lia.
  - destruct topicLists_NoDup as [He Ha].
    destruct (isArabic detectAr text).
    + destruct (slice_filter_props
                  (fun topic => includes (toLowerCase lowerTbl text)
                                  (toLowerCase lowerTbl topic))
                  commonArabicTopics (topicLimitOf limit) Ha) as [H1 [H2 [H3 H4]]].
      auto.
    + destruct (slice_filter_props
                  (fun topic => includes (toLowerCase lowerTbl text)
                                  (toLowerCase lowerTbl topic))
                  commonEnglishTopics (topicLimitOf limit) He) as [H1 [H2 [H3 H4]]].
      auto.
Qed.

(** X6. suggestRelatedTopics returns at most 3 topics, without
    duplicates; none of them equals (ignoring case) one of the given
    topics, and each one is listed in [relatedMap] under a key that
    equals (ignoring case) one of the given topics. *)
Theorem suggestRelatedTopics_props lowerTbl topics :
  let r := suggestRelatedTopics lowerTbl topics in
  (length r <= 3)%nat /\ NoDup r /\
  (forall x, In x r -> ~ (exists t, In t topics /\ sameLower lowerTbl t x = true)) /\
  (forall x, In x r -> exists t k v,
     In t topics /\ In (k, v) relatedMap /\ sameLower lowerTbl k t = true /\ In x v).
Proof.
  intros r. unfold r. destruct topics as [|t0 ts].
  - cbn. split; [lia|]. split; [constructor|]. split; intros x [].
  - exact (suggest_core lowerTbl (t0 :: ts)).
Qed.

(* ================================================================== *)
(** * Error handling of the asynchronous summarize (unnamed/part_002)

    [summarizeAsync msgOf body rs] follows lines 96-242.  [body] is the
    outcome of lines 98-207: either the exception they throw (cleanText,
    language detection, the Gemini configuration check, the summarizers,
    ...) or the result record they build, before filtering.  The filtering
    of lines 130-132 and 209-213 and the whole [catch] block are modelled
    as written.  [rs] is [options.responseStructure]; it equals
    [finalOptions.responseStructure] or both are falsy, since the default
    is [null].  [msgOf e] is the message of an exception other than the
    configuration error thrown by filterResultFields. *)

Definition configErrorMessage : string :=
  "Cannot use both 'include' and 'exclude' in responseStructure simultaneously".

Definition errorMessage (msgOf : exn -> string) (e : exn) : string :=
  match e with ConfigError => configErrorMessage | _ => msgOf e end.

Definition errorResult (message : string) : record :=
  <["ok" := JBool false]> (
  <["error" := JStr "Failed to summarize the content"]> (
  <["message" := JStr message]> (
  <["language" := JStr "en"]> (
  <["summary" := JStr EmptyString]> (
  <["sentiment" := JStr "neutral"]> (
  <["topics" := JStrs []]> (
  <["words" := JNum 0]> (
  <["readingTime" := JNum 0]> (
  <["difficulty" := JStr "medium"]> ∅))))))))).

Definition summarizeAsync (msgOf : exn -> string) (body : exn + record)
  (rs : option ResponseStructure) : record :=
  let attempt : exn + record :=
    result <-- body ;;
    match rs with
    | Some s => filterResultFields result s
    | None => ret result
    end in
  match attempt with
  | inr r => r
  | inl error =>
      let message := errorMessage msgOf error in
      let er := errorResult message in
      match rs with
      | Some s =>
          match filterResultFields er s with
          | inr r => r
          | inl filterError =>
              <["message" := JStr (String.append message
                  (String.append ". Additionally: " (errorMessage msgOf filterError)))]> er
          end
      | None => er
      end
  end.

Lemma errorResult_ok m : errorResult m !! "ok" = Some (JBool false).
Proof. unfold errorResult. apply lookup_insert_eq. Qed.

Lemma fold_delete_lookup (fs : list string) (r : record) k :
  ~ In k fs -> fold_left (fun acc field => delete field acc) fs r !! k = r !! k.
Proof.
  revert r. induction fs as [|f fs IH]; intros r Hk; [reflexivity|]. simpl.
  rewrite IH by (intros H; apply Hk; right; exact H).
  apply lookup_delete_ne. intros ->. apply Hk. left. reflexivity.
Qed.

Lemma filterByList_ok m fields : filterByList (errorResult m) fields !! "ok" = Some (JBool false).
Proof.
  rewrite (filterByList_lookup _ (JBool false) fields (errorResult_ok m) ltac:(discriminate)).
  rewrite bool_decide_true by (left; reflexivity). apply errorResult_ok.
Qed.

(** X7. When responseStructure has both [include] and [exclude],
    summarize never rejects and never filters: it resolves to the error
    record with ok = false, also when the summarization itself succeeded,
    and its message is the message of the first error followed by
    ". Additionally: " and the configuration error message (so, after a
    successful summarization, the configuration message twice). *)
Theorem summarize_include_and_exclude msgOf body inc exc :
  let m := match body with
           | inl e => errorMessage msgOf e
           | inr _ => configErrorMessage
           end in
  summarizeAsync msgOf body (Some (RSObject (Some inc) (Some exc))) =
  <["message" := JStr (String.append m (String.append ". Additionally: " configErrorMessage))]>
    (errorResult m).
Proof. destruct body; reflexivity. Qed.

(** X8. When the summarization fails, the response of summarize always
    has ok = false, whatever responseStructure asks for (an include list
    that omits "ok" included), unless an exclude list alone names "ok". *)
Theorem summarize_failure_ok_false msgOf e rs
  (Hrs : forall exc, rs = Some (RSObject None (Some exc)) -> ~ In "ok"%string exc) :
  summarizeAsync msgOf (inl e) rs !! "ok" = Some (JBool false).
Proof.
  destruct rs as [[fields|[inc|] [exc|]]|];
    unfold summarizeAsync, bindR, filterResultFields, throw, ret; cbv beta iota.
  - apply filterByList_ok.
  - rewrite lookup_insert_ne by discriminate. apply errorResult_ok.
  - apply filterByList_ok.
  - rewrite fold_delete_lookup by (apply Hrs; reflexivity). apply errorResult_ok.
  - apply errorResult_ok.
  - apply errorResult_ok.
Qed.

Lemma summarize_failure_ok_false_witness :
  (forall exc, Some (RSObject None (Some ["summary"%string])) = Some (RSObject None (Some exc)) ->
     ~ In "ok"%string exc) /\
  summarizeAsync (fun _ => "boom"%string) (inl BackendError)
    (Some (RSObject None (Some ["summary"%string]))) !! "ok" = Some (JBool false).
Proof.
  assert (H : forall exc, Some (RSObject None (Some ["summary"%string])) =
                          Some (RSObject None (Some exc)) -> ~ In "ok"%string exc).
  { intros exc E. injection E as <-. simpl. intros [Hs|[]]. discriminate Hs. }
  split; [exact H|]. exact (summarize_failure_ok_false _ _ _ H).
Defined.

(* ================================================================== *)
(** * Sentence extraction on blank and Latin-script text *)

(** The text has a code unit outside [\s]. *)
Definition hasNonWs (s : str) : bool := existsb (fun c => negb (is_ws c)) s.

Lemma hasNonWs_rev s : hasNonWs (rev s) = hasNonWs s.
Proof.
  unfold hasNonWs. apply Bool.eq_iff_eq_true. rewrite !existsb_exists.
  split; intros [c [Hc Hp]]; exists c; split; auto.
  - apply (proj2 (in_rev s c)). exact Hc.
  - apply (proj1 (in_rev s c)). exact Hc.
Qed.

Lemma hasNonWs_all_ws l : List.Forall (fun c => is_ws c = true) l -> hasNonWs l = false.
Proof.
  induction 1 as [|c l Hc _ IH]; [reflexivity|].
  unfold hasNonWs in *. cbn [existsb]. rewrite Hc, IH. reflexivity.
Qed.

Lemma trim_nil_all_ws s : trim s = [] -> hasNonWs s = false.
Proof.
  intros H. destruct (trim_shape s) as [b [Hx [Hb _]]]. rewrite H in Hx.
  destruct (dropWhile_split is_ws s) as [a [Ha Hf]]. rewrite Ha, Hx.
  unfold hasNonWs. rewrite existsb_app.
  fold (hasNonWs a) (hasNonWs b). rewrite !hasNonWs_all_ws by assumption. reflexivity.
Qed.

Lemma isBlank_false_nonws s : isBlank s = false -> hasNonWs s = true.
Proof.
  unfold isBlank. destruct (trim s) as [|c t] eqn:E; [discriminate|]. intros _.
  destruct (trim_shape s) as [_ [_ [_ Hh]]].
  unfold hasNonWs. apply existsb_exists. exists c. split.
  - apply trim_chars. rewrite E. left. reflexivity.
  - rewrite (Hh c t E). reflexivity.
Qed.

Lemma isBlank_true_ws s : isBlank s = true -> forall c, In c s -> is_ws c = true.
Proof.
  unfold isBlank. destruct (trim s) eqn:E; [|discriminate]. intros _ c Hc.
  apply trim_nil_all_ws in E. unfold hasNonWs in E.
  destruct (is_ws c) eqn:Ec; [reflexivity|].
  assert (existsb (fun c => negb (is_ws c)) s = true)
    by (apply existsb_exists; exists c; rewrite Ec; auto).
  congruence.
Qed.

(** Every piece of [/(?<=[.!?])\s+/] splitting is empty or has a
    non-white-space code unit, when the text has one. *)
Lemma splitLatin_nonblank s cur prev inrun :
  (inrun = false -> forall d, prev = Some d -> exists r, cur = d :: r) ->
  (hasNonWs cur = true \/ (inrun = true /\ cur = []) \/ hasNonWs s = true) ->
  forall x, In x (splitLatin_aux s cur prev inrun) -> x = [] \/ hasNonWs x = true.
Proof.
  revert cur prev inrun.
  induction s as [|c t IH]; intros cur prev inrun HI HJ x Hx.
  - destruct Hx as [<-|[]]. rewrite hasNonWs_rev.
    destruct HJ as [H|[[_ ->]|H]]; [right; exact H|left; reflexivity|discriminate].
  - assert (Hc : hasNonWs (c :: t) = negb (is_ws c) || hasNonWs t) by reflexivity.
    cbn [splitLatin_aux] in Hx.
    change (match prev with Some d => is_latin_punct d | None => false end)
      with (prevPunct prev) in Hx.
    destruct (inrun && is_ws c) eqn:E1.
    + apply andb_true_iff in E1 as [Hr Hw].
      apply (IH cur (Some c) true); auto; [discriminate|].
      rewrite Hc, Hw, Hr in HJ. exact HJ.
    + destruct (is_ws c && prevPunct prev) eqn:E2.
      * apply andb_true_iff in E2 as [Hw Hp].
        assert (Hr : inrun = false) by (destruct inrun; [cbn in E1; congruence|reflexivity]).
        destruct Hx as [<-|Hx].
        -- right. rewrite hasNonWs_rev.
           destruct prev as [d|]; [|discriminate Hp].
           destruct (HI Hr d eq_refl) as [r ->]. unfold hasNonWs. cbn [existsb].
           destruct (is_ws d) eqn:Ed; [|reflexivity].
           apply ws_not_punct in Ed. cbn in Hp. congruence.
        -- apply (IH [] (Some c) true); auto. discriminate.
      * apply (IH (c :: cur) (Some c) false); auto.
        -- intros _ d Hd. injection Hd as <-. eauto.
        -- destruct (is_ws c) eqn:Hw.
           ++ assert (Hr : inrun = false)
                by (destruct inrun; [cbn in E1; congruence|reflexivity]).
              rewrite Hc in HJ. cbn [negb orb] in HJ.
              destruct HJ as [H|[[H _]|H]].
              ** left. unfold hasNonWs in *. cbn [existsb]. rewrite H, orb_true_r.
                 reflexivity.
              ** congruence.
              ** right. right. exact H.
           ++ left. unfold hasNonWs. cbn [existsb]. rewrite Hw. reflexivity.
Qed.

Lemma splitLatin_all_ws s cur prev :
  (forall c, In c s -> is_ws c = true) -> prevPunct prev = false ->
  splitLatin_aux s cur prev false = [rev cur ++ s].
Proof.
  revert cur prev. induction s as [|c t IH]; intros cur prev Hs Hp.
  - rewrite app_nil_r. reflexivity.
  - cbn [splitLatin_aux andb].
    change (match prev with Some d => is_latin_punct d | None => false end)
      with (prevPunct prev).
    rewrite Hp, andb_false_r.
    rewrite IH.
    + simpl. rewrite <- app_assoc. reflexivity.
    + intros d Hd. apply Hs. right. exact Hd.
    + apply ws_not_punct. apply Hs. left. reflexivity.
Qed.

Lemma ws_not_stop c : is_ws c = true -> is_arabic_stop c = false.
Proof.
  intros Hw. destruct (is_arabic_stop c) eqn:E; [|reflexivity].
  unfold is_arabic_stop in E. repeat rewrite orb_true_iff in E.
  repeat rewrite Z.eqb_eq in E.
  destruct E as [[[[[E|E]|E]|E]|E]|E]; subst c; discriminate Hw.
Qed.

(** X9. On text that is not detected as Arabic and is not blank,
    extractSentences returns only non-empty sentences, none of which
    starts or ends with white space. *)
Theorem extractSentences_latin_nonempty detectAr text
  (Hlat : isArabic detectAr text = false) (Hnb : isBlank text = false) :
  forall s, In s (extractSentences detectAr text) -> s <> [] /\ trim s = s.
Proof.
  intros s Hs. unfold extractSentences in Hs. rewrite Hlat in Hs.
  apply in_map_iff in Hs as [p [<- Hp]]. apply filter_In in Hp as [Hp Hne].
  split; [|apply trim_idem].
  destruct (splitLatin_nonblank text [] None false) with (x := p) as [H|H].
  - intros _ d Hd. discriminate Hd.
  - right. right. apply isBlank_false_nonws. exact Hnb.
  - exact Hp.
  - subst p. discriminate Hne.
  - intros E. apply trim_nil_all_ws in E. congruence.
Qed.

Lemma extractSentences_latin_nonempty_witness :
  isArabic (fun _ => false) (s2z " Hi there.   How are you?  Fine. ") = false /\
  isBlank (s2z " Hi there.   How are you?  Fine. ") = false /\
  (forall s, In s (extractSentences (fun _ => false)
                     (s2z " Hi there.   How are you?  Fine. ")) ->
     s <> [] /\ trim s = s).
Proof.
  split; [reflexivity|]. split; [reflexivity|].
  apply extractSentences_latin_nonempty; reflexivity.
Defined.

(** X10. A non-empty text made only of white space gives exactly one
    sentence, the empty string, in both branches of extractSentences. *)
Theorem extractSentences_blank detectAr text
  (Hne : text <> []) (Hb : isBlank text = true) :
  extractSentences detectAr text = [[]].
Proof.
  pose proof (isBlank_true_ws text Hb) as Hws.
  assert (Ht : trim text = []).
  { unfold isBlank in Hb. destruct (trim text); [reflexivity|discriminate]. }
  assert (Hn : nonEmpty text = true) by (destruct text; [congruence|reflexivity]).
  unfold extractSentences. destruct (isArabic detectAr text).
  - unfold splitRuns. rewrite splitRuns_no_sep
      by (intros c Hc; apply ws_not_stop, Hws, Hc).
    simpl. rewrite Hn. simpl. rewrite Ht. reflexivity.
  - unfold splitLatin. rewrite splitLatin_all_ws by (auto || reflexivity).
    simpl. rewrite Hn. simpl. rewrite Ht. reflexivity.
Qed.

Lemma extractSentences_blank_witness :
  s2z "  " <> [] /\ isBlank (s2z "  ") = true /\
  extractSentences (fun _ => false) (s2z "  ") = [[]].
Proof.
  split; [discriminate|]. split; [reflexivity|].
  apply extractSentences_blank; [discriminate|reflexivity].
Defined.
